(** * Identity cache (package [cache] of pkg/identity): read path and event
    watcher.

    The development embeds [collectEvent], the body of the watcher loop,
    [GetIdentityCache], [GetIdentities], [LookupIdentity] and
    [LookupIdentityByID], then [Less], the two identity handlers of the
    daemon and [Sanitize] of the HTTP rules.  Go maps are finite maps ([gmap]); the two maps a
    watcher iteration mutates are threaded through explicitly; a method call
    through a nil collaborator is a run-time panic, kept apart from the
    "not found" result (a nil [*identity.Identity]). *)

From stdpp Require Import gmap strings list fin_maps.

(** ** Integer types

    [idpool.ID] and [identity.NumericIdentity] are unsigned integers; the
    conversions between them are fields of [Collaborators] below. *)
Abbreviation ID := N (only parsing).
Abbreviation NumericIdentity := N (only parsing).

(** ** What the cache takes from the packages it imports

    [labels], [identity], [idpool] and [models] are collaborators of the
    cache.  Their types and functions are taken as given: every result below
    holds whatever they are. *)
Class Collaborators := {
  (* labels *)
  Label : Type;
  NewLabel : string → string → string → Label;
  IDNameUnknown : string;
  LabelSourceReserved : string;
  (* labels.Labels is a Go map from label key to label; its method
     LabelArray() lists the labels *)
  Labels_LabelArray : gmap string Label → list Label;
  (* idpool, identity *)
  NoID : ID;
  IdentityUnknown : NumericIdentity;
  NumericIdentity_of_ID : ID → NumericIdentity;
  ID_of_NumericIdentity : NumericIdentity → ID;
  Identity : Type;
  Identity_ID : Identity → NumericIdentity;
  Identity_Labels : Identity → gmap string Label;
  NewIdentity : NumericIdentity → gmap string Label → Identity;
  NewIdentityFromLabelArray : NumericIdentity → list Label → Identity;
  ReservedIdentityCache : gmap NumericIdentity Identity;
  LookupReservedIdentityByLabels : gmap string Label → option Identity;
  LookupReservedIdentity : NumericIdentity → option Identity;
  (* models *)
  Model : Type;
  GetModel : Identity → Model;
}.

Abbreviation Labels := (gmap string Label) (only parsing).
Abbreviation LabelArray := (list Label) (only parsing).

(** IdentityCache is a cache of identity to labels mapping. *)
Abbreviation IdentityCache := (gmap NumericIdentity LabelArray) (only parsing).

(** ** Panics

    [Ok v] is a normal return, [Panic] a nil-pointer dereference. *)
Inductive Result (A : Type) : Type :=
  | Ok (a : A)
  | Panic.
Arguments Ok {A} a.
Arguments Panic {A}.

#[global] Instance Result_ret : MRet Result := λ A a, Ok a.
#[global] Instance Result_bind : MBind Result := λ A B f r,
  match r with
  | Ok a => f a
  | Panic => Panic
  end.

(** Calling a method through the pointer [p]. *)
Definition deref {A} (p : option A) : Result A :=
  match p with
  | Some a => Ok a
  | None => Panic
  end.

(** ** The allocator's keys and events *)

Inductive EventType : Set :=
  | EventTypeCreate
  | EventTypeModify
  | EventTypeDelete.

#[global] Instance EventType_eq_dec : EqDecision EventType.
Proof. solve_decision. Defined.

Section types.
Context `{Collaborators}.

(** GlobalIdentity is the structure used to store an identity in the
    kvstore; it embeds a [labels.LabelArray]. *)
Record GlobalIdentity := { GlobalIdentity_LabelArray : LabelArray }.

(** A value of the interface [allocator.AllocatorKey]: nil, a
    [GlobalIdentity], or a value of some other dynamic type (named by its
    type, as [reflect.TypeOf] prints it). *)
Inductive AllocatorKey :=
  | KeyNil
  | KeyGlobalIdentity (gi : GlobalIdentity)
  | KeyOther (ty : string).

(** The type assertion [val.(GlobalIdentity)] in its comma-ok form. *)
Definition asGlobalIdentity (val : AllocatorKey) : option GlobalIdentity :=
  match val with
  | KeyGlobalIdentity gi => Some gi
  | KeyNil | KeyOther _ => None
  end.

Record AllocatorEvent := {
  Typ : EventType;
  Event_ID : ID;
  Key : AllocatorKey;
}.
End types.

(** ** The event watcher *)
Section watcher.
Context `{Collaborators}.

(** collectEvent records the 'event' as an added or deleted identity, and
    makes sure that any identity is present in only one of the sets (added
    or deleted).  The two maps are updated in place by the source; here the
    updated maps are returned next to the boolean. *)
Definition collectEvent (event : AllocatorEvent) (added deleted : IdentityCache)
  : bool * IdentityCache * IdentityCache :=
  let id := NumericIdentity_of_ID (Event_ID event) in
  if decide (Typ event = EventTypeCreate) then
    match asGlobalIdentity (Key event) with
    | Some gi =>
        let deleted :=
          if decide (is_Some (deleted !! id)) then delete id deleted else deleted in
        let added := <[id := GlobalIdentity_LabelArray gi]> added in
        (true, added, deleted)
    | None => (false, added, deleted)
    end
  else
    let added :=
      if decide (is_Some (added !! id)) then delete id added else added in
    let deleted := <[id := []]> deleted in
    (true, added, deleted).

(** [collectEvent] applied to a sequence of events, one after the other,
    on the same two maps. *)
Definition collectEvents (events : list AllocatorEvent)
    (added deleted : IdentityCache) : IdentityCache * IdentityCache :=
  fold_left (λ '(added, deleted) event,
               let '(_, added, deleted) := collectEvent event added deleted in
               (added, deleted))
            events (added, deleted).

(** One iteration of the loop of [watch], on the events queued in the
    channel (none arrives while the iteration runs).

    The loop labelled First waits for the first event that is collected. It
    gives the events left in the channel and the two maps; [None] when the
    channel runs out first (the goroutine then blocks, or returns on a closed
    channel or on stop, and nothing is issued).  The case of the stop channel
    is never taken while events are queued: [First] is the run in which the
    stop channel stays open; [First_select] below has the other runs. *)
Fixpoint First (events : list AllocatorEvent) (added deleted : IdentityCache)
  : option (list AllocatorEvent * IdentityCache * IdentityCache) :=
  match events with
  | [] => None
  | event :: events =>
      match Typ event with
      | EventTypeCreate | EventTypeDelete =>
          let '(collected, added, deleted) := collectEvent event added deleted in
          if collected then Some (events, added, deleted)
          else First events added deleted
      | EventTypeModify => First events added deleted
      end
  end.

(** The loop labelled More: see if there is more, but do not wait. *)
Fixpoint More (events : list AllocatorEvent) (added deleted : IdentityCache)
  : IdentityCache * IdentityCache :=
  match events with
  | [] => (added, deleted)
  | event :: events =>
      match Typ event with
      | EventTypeCreate | EventTypeDelete =>
          let '(_, added, deleted) := collectEvent event added deleted in
          More events added deleted
      | EventTypeModify => More events added deleted
      end
  end.

(** The arguments of [w.owner.UpdateIdentities(added, deleted)] at the end
    of the iteration. *)
Definition watch_iteration (events : list AllocatorEvent)
  : option (IdentityCache * IdentityCache) :=
  match First events ∅ ∅ with
  | Some (events, added, deleted) => Some (More events added deleted)
  | None => None
  end.

Definition Create (id : ID) (L : LabelArray) : AllocatorEvent :=
  {| Typ := EventTypeCreate; Event_ID := id;
     Key := KeyGlobalIdentity {| GlobalIdentity_LabelArray := L |} |}.

Definition Delete (id : ID) (key : AllocatorKey) : AllocatorEvent :=
  {| Typ := EventTypeDelete; Event_ID := id; Key := key |}.
End watcher.

(** ** The collaborators that hold state *)

(** The distributed allocator ([allocator.Allocator]), as far as the cache
    reads it: the entries of its caches in the order [ForeachCache] visits
    them, and the two queries; a Go result [(v, err)] is a pair whose second
    component is [None] for a nil error. *)
Module allocator.
Section allocator.
Context `{Collaborators}.

Record Allocator := {
  entries : list (ID * AllocatorKey);
  Get : AllocatorKey → ID * option string;
  GetByID : ID → AllocatorKey * option string;
}.

(** ForeachCache calls [cb] on every entry; [cb] updates a variable of
    the caller, whose value is passed along. *)
Definition ForeachCache {S : Type} (a : Allocator)
    (cb : ID → AllocatorKey → S → S) (s : S) : S :=
  fold_left (λ s '(id, val), cb id val s) (entries a) s.
End allocator.
End allocator.

(** The node-local identity store ([localIdentityCache]), through the three
    methods the cache calls; [GetIdentities] gives the identities in the
    order the [range] loop meets them. *)
Module localIdentityCache.
Section localIdentityCache.
Context `{Collaborators}.

Record t := {
  lookup : Labels → option Identity;
  lookupByID : NumericIdentity → option Identity;
  GetIdentities : list Identity;
}.
End localIdentityCache.
End localIdentityCache.

(** ** The identity cache manager *)
Section cache.
Context `{Collaborators}.

(** The two fields of CachingIdentityAllocator the read path uses; [None]
    is a nil pointer. *)
Record CachingIdentityAllocator := {
  IdentityAllocator : option allocator.Allocator;
  localIdentities : option localIdentityCache.t;
}.

(** IdentitiesModel is a slice of identity models. *)
Definition IdentitiesModel : Type := list Model.

(** GetIdentityCache returns a cache of all known identities. *)
Definition GetIdentityCache (m : CachingIdentityAllocator) : Result IdentityCache :=
  let cache : IdentityCache := ∅ in
  let cache :=
    match IdentityAllocator m with
    | Some a =>
        allocator.ForeachCache a
          (λ id val cache,
             match val with
             | KeyNil => cache
             | _ =>
                 match asGlobalIdentity val with
                 | Some gi =>
                     <[NumericIdentity_of_ID id := GlobalIdentity_LabelArray gi]> cache
                 | None => cache (* log.Warningf *)
                 end
             end)
          cache
    | None => cache
    end in
  let cache :=
    map_fold (λ key identity cache,
                <[key := Labels_LabelArray (Identity_Labels identity)]> cache)
             cache ReservedIdentityCache in
  let cache :=
    match localIdentities m with
    | Some l =>
        fold_left (λ cache identity,
                     <[Identity_ID identity :=
                         Labels_LabelArray (Identity_Labels identity)]> cache)
                  (localIdentityCache.GetIdentities l) cache
    | None => cache
    end in
  Ok cache.

(** GetIdentities returns all known identities. *)
Definition GetIdentities (m : CachingIdentityAllocator) : Result IdentitiesModel :=
  let identities : IdentitiesModel := [] in
  a ← deref (IdentityAllocator m);
  let identities :=
    allocator.ForeachCache a
      (λ id val identities,
         match asGlobalIdentity val with
         | Some gi =>
             let identity :=
               NewIdentityFromLabelArray (NumericIdentity_of_ID id)
                                         (GlobalIdentity_LabelArray gi) in
             identities ++ [GetModel identity]
         | None => identities
         end)
      identities in
  (* append user reserved identities *)
  let identities :=
    map_fold (λ _ v identities, identities ++ [GetModel v])
             identities ReservedIdentityCache in
  l ← deref (localIdentities m);
  let identities :=
    fold_left (λ identities v, identities ++ [GetModel v])
              (localIdentityCache.GetIdentities l) identities in
  Ok identities.

(** LookupIdentity looks up the identity by its labels but does not create
    it. *)
Definition LookupIdentity (m : CachingIdentityAllocator) (lbls : Labels)
  : Result (option Identity) :=
  match LookupReservedIdentityByLabels lbls with
  | Some reservedIdentity => Ok (Some reservedIdentity)
  | None =>
      l ← deref (localIdentities m);
      match localIdentityCache.lookup l lbls with
      | Some identity' => Ok (Some identity')
      | None =>
          match IdentityAllocator m with
          | None => Ok None
          | Some a =>
              let lblArray := Labels_LabelArray lbls in
              let '(id, err) :=
                allocator.Get a
                  (KeyGlobalIdentity {| GlobalIdentity_LabelArray := lblArray |}) in
              match err with
              | Some _ => Ok None
              | None =>
                  if decide (id = NoID) then Ok None
                  else Ok (Some (NewIdentityFromLabelArray
                                   (NumericIdentity_of_ID id) lblArray))
              end
          end
      end
  end.

Definition unknownIdentity : Identity :=
  NewIdentity IdentityUnknown
    {[ IDNameUnknown := NewLabel IDNameUnknown "" LabelSourceReserved ]}.

(** LookupIdentityByID returns the identity by ID. *)
Definition LookupIdentityByID (m : CachingIdentityAllocator) (id : NumericIdentity)
  : Result (option Identity) :=
  if decide (id = IdentityUnknown) then Ok (Some unknownIdentity)
  else
    match LookupReservedIdentity id with
    | Some identity' => Ok (Some identity')
    | None =>
        match IdentityAllocator m with
        | None => Ok None
        | Some a =>
            l ← deref (localIdentities m);
            match localIdentityCache.lookupByID l id with
            | Some identity' => Ok (Some identity')
            | None =>
                let '(allocatorKey, err) :=
                  allocator.GetByID a (ID_of_NumericIdentity id) in
                match err with
                | Some _ => Ok None
                | None =>
                    match asGlobalIdentity allocatorKey with
                    | Some gi =>
                        Ok (Some (NewIdentityFromLabelArray
                                    id (GlobalIdentity_LabelArray gi)))
                    | None => Ok None
                    end
                end
            end
        end
    end.

(** *** What each source contributes

    These maps are not in the source: they name the entries of the three
    sources, for the statements about [GetIdentityCache].  When a source
    lists a key twice, the entry met last is the one it contributes. *)

Definition labelsOf (i : Identity) : LabelArray :=
  Labels_LabelArray (Identity_Labels i).

(** The reserved table, each identity with its labels. *)
Definition reservedEntries : IdentityCache :=
  labelsOf <$> ReservedIdentityCache.

(** The identities the node-local store lists; none for a nil store. *)
Definition localList (l : option localIdentityCache.t) : list Identity :=
  match l with
  | Some l => localIdentityCache.GetIdentities l
  | None => []
  end.

Definition localEntries (l : option localIdentityCache.t) : IdentityCache :=
  list_to_map (reverse ((λ i, (Identity_ID i, labelsOf i)) <$> localList l)).

(** A cached entry of the allocator is recognized when its value is a
    [GlobalIdentity]. *)
Definition recognized (entry : ID * AllocatorKey)
  : option (NumericIdentity * LabelArray) :=
  match entry.2 with
  | KeyGlobalIdentity gi =>
      Some (NumericIdentity_of_ID entry.1, GlobalIdentity_LabelArray gi)
  | KeyNil | KeyOther _ => None
  end.

Definition allocatorEntries (a : allocator.Allocator) : IdentityCache :=
  list_to_map (reverse (omap recognized (allocator.entries a))).

(** The allocator [a] with the entries [es] in its cache. *)
Definition withEntries (a : allocator.Allocator) (es : list (ID * AllocatorKey))
  : allocator.Allocator :=
  {| allocator.entries := es;
     allocator.Get := allocator.Get a;
     allocator.GetByID := allocator.GetByID a |}.
End cache.

(** ** A concrete set of collaborators

    Labels are (key, value, source) triples, an identity is a number with its
    labels, an allocator ID is 64 bits wide and a numeric identity 32 bits
    wide, and the reserved table holds the identity 1 (world). *)
Module example.
Definition label : Type := string * string * string.

Definition world_labels : gmap string label :=
  {[ "world" := ("world", "", "reserved") ]}.

Definition world : N * gmap string label := (1%N, world_labels).

#[global] Instance collaborators : Collaborators := {|
  Label := label;
  NewLabel := λ key value source, (key, value, source);
  IDNameUnknown := "unknown";
  LabelSourceReserved := "reserved";
  Labels_LabelArray := λ lbls, (map_to_list lbls).*2;
  NoID := 0%N;
  IdentityUnknown := 0%N;
  NumericIdentity_of_ID := λ id, (id mod 2 ^ 32)%N;
  ID_of_NumericIdentity := λ id, id;
  Identity := N * gmap string label;
  Identity_ID := fst;
  Identity_Labels := snd;
  NewIdentity := λ id lbls, (id, lbls);
  NewIdentityFromLabelArray :=
    λ id arr, (id, list_to_map ((λ l : label, (l.1.1, l)) <$> arr));
  ReservedIdentityCache := {[ 1%N := world ]};
  LookupReservedIdentityByLabels :=
    λ lbls, if decide (lbls = world_labels) then Some world else None;
  LookupReservedIdentity :=
    λ id, if decide (id = 1%N) then Some world else None;
  Model := N * gmap string label;
  GetModel := λ i, i;
|}.

Definition app (value : string) : list label := [("app", value, "k8s")].

(** A node-local store that holds the identity 16777217 (cidr:10.0.0.1/32)
    and nothing else. *)
Definition cidr_labels : gmap string label :=
  {[ "cidr:10.0.0.1/32" := ("cidr:10.0.0.1/32", "", "cidr") ]}.

Definition cidr : N * gmap string label := (16777217%N, cidr_labels).

Definition local_store : localIdentityCache.t := {|
  localIdentityCache.lookup :=
    λ lbls, if decide (lbls = cidr_labels) then Some cidr else None;
  localIdentityCache.lookupByID :=
    λ id, if decide (id = 16777217%N) then Some cidr else None;
  localIdentityCache.GetIdentities := [cidr];
|}.

(** An allocator whose cache holds 7 (app=foo), 8 (app=bar) and an entry
    of a foreign type under 9. *)
Definition kvstore_allocator : allocator.Allocator := {|
  allocator.entries :=
    [ (7%N, KeyGlobalIdentity {| GlobalIdentity_LabelArray := app "foo" |});
      (9%N, KeyOther "string");
      (8%N, KeyGlobalIdentity {| GlobalIdentity_LabelArray := app "bar" |}) ];
  allocator.Get := λ _, (0%N, None);
  allocator.GetByID := λ _, (KeyNil, Some "not found");
|}.
End example.

(** ** Which events a batch is made of

    These predicates are not in the source: they name the events
    [collectEvent] reports as collected and the events an iteration of the
    watcher passes to it, for the statements about batches. *)
Section watcher_events.
Context `{Collaborators}.

(** The key under which [collectEvent] files the event. *)
Definition eventKey (event : AllocatorEvent) : NumericIdentity :=
  NumericIdentity_of_ID (Event_ID event).

(** Every event but a create event whose key is not a GlobalIdentity. *)
Definition collected (event : AllocatorEvent) : Prop :=
  Typ event ≠ EventTypeCreate ∨ is_Some (asGlobalIdentity (Key event)).

#[global] Instance collected_dec event : Decision (collected event).
Proof. unfold collected. apply _. Defined.

(** The collected events the loops of [watch] let through (create and
    delete events). *)
Definition collectable (event : AllocatorEvent) : Prop :=
  Typ event ≠ EventTypeModify ∧ collected event.

#[global] Instance collectable_dec event : Decision (collectable event).
Proof. unfold collectable. apply _. Defined.

(** The loop labelled First with both cases of its select.  [stop] tells,
    for each pass through the select, whether the case [<-w.stopChan] is
    taken (it can be once the stop channel is closed; when the event channel
    is ready too, Go picks either case); a list that runs out means the case
    is not taken.  On stop the goroutine returns and nothing is issued. *)
Fixpoint First_select (stop : list bool) (events : list AllocatorEvent)
    (added deleted : IdentityCache)
  : option (list AllocatorEvent * IdentityCache * IdentityCache) :=
  match events with
  | [] => None
  | event :: events =>
      if hd false stop then None
      else
        match Typ event with
        | EventTypeCreate | EventTypeDelete =>
            let '(collected, added, deleted) := collectEvent event added deleted in
            if collected then Some (events, added, deleted)
            else First_select (tl stop) events added deleted
        | EventTypeModify => First_select (tl stop) events added deleted
        end
  end.

(** One iteration of the loop of [watch] under the choices [stop]: the
    arguments of UpdateIdentities, [None] when the iteration issues nothing. *)
Definition watch_select (stop : list bool) (events : list AllocatorEvent)
  : option (IdentityCache * IdentityCache) :=
  match First_select stop events ∅ ∅ with
  | Some (events, added, deleted) => Some (More events added deleted)
  | None => None
  end.
End watcher_events.

(** ** Sorting identities, and the API handlers of the daemon *)

(** What the handlers and [Less] take from [models] and [identity]: the ID
    field read through a [*models.Identity] ([None] for a nil pointer), the
    parser of numeric identities and the conversion of the labels of a
    request. *)
Class ApiCollaborators `{Collaborators} := {
  Model_ID : Model → option Z;
  ParseNumericIdentity : string → NumericIdentity * option string;
  NewLabelsFromModel : list string → Labels;
}.

(** The responses of the two handlers. *)
Inductive Responder `{Collaborators} :=
  | GetIdentityOK (payload : list Model)
  | GetIdentityIDNotFound
  | GetIdentityIDBadRequest
  | GetIdentityIDOK (payload : Model).

Section api.
Context `{ApiCollaborators}.

(** [s[i]] for a Go int [i]: an index out of range is a run-time panic. *)
Definition index {A : Type} (s : list A) (i : Z) : Result A :=
  if decide (0 ≤ i < Z.of_nat (length s))%Z then deref (s !! Z.to_nat i)
  else Panic.

(** Less returns true if the element in index `i` is lower than the element
    in index `j`. *)
Definition Less (s : IdentitiesModel) (i j : Z) : Result bool :=
  x ← index s i;
  xid ← deref (Model_ID x);
  y ← index s j;
  yid ← deref (Model_ID y);
  Ok (bool_decide (xid < yid)%Z).

(** GetIdentityParams: [Labels] is a slice, nil when the request names no
    labels. *)
Record GetIdentityParams := { Params_Labels : option (list string) }.

Record GetIdentityIDParams := { Params_ID : string }.

(** getIdentity.Handle, on the allocator of the daemon. *)
Definition getIdentity_Handle (identityAllocator : CachingIdentityAllocator)
    (params : GetIdentityParams) : Result Responder :=
  let identities : list Model := [] in
  match Params_Labels params with
  | None =>
      (* if labels is nil, return all identities from the kvstore *)
      identities ← GetIdentities identityAllocator;
      Ok (GetIdentityOK identities)
  | Some lbls =>
      identity ← LookupIdentity identityAllocator (NewLabelsFromModel lbls);
      match identity with
      | None => Ok GetIdentityIDNotFound
      | Some identity' => Ok (GetIdentityOK (identities ++ [GetModel identity']))
      end
  end.

(** getIdentityID.Handle, on the allocator [c] of the handler. *)
Definition getIdentityID_Handle (c : CachingIdentityAllocator)
    (params : GetIdentityIDParams) : Result Responder :=
  let '(nid, err) := ParseNumericIdentity (Params_ID params) in
  match err with
  | Some _ => Ok GetIdentityIDBadRequest
  | None =>
      identity ← LookupIdentityByID c nid;
      match identity with
      | None => Ok GetIdentityIDNotFound
      | Some identity' => Ok (GetIdentityIDOK (GetModel identity'))
      end
  end.
End api.

(** ** HTTP rules (package [api]) *)
Module http.
Section http.
(** [regexp.Compile], by the error it returns ([None] for nil), and the type
    of k8s secrets. *)
Context (regexp_Compile : string → option string) (K8sSecret : Type).

(** SecretHeader specifies a matching requirement of a named header field
    to a secret value. *)
Record SecretHeader := {
  Name : string;
  Secret : option K8sSecret;
}.

(** PortRuleHTTP is a list of HTTP protocol constraints. *)
Record PortRuleHTTP := {
  Path : string;
  Method : string;
  Host : string;
  Headers : list string;
  SecretHeaders : list (option SecretHeader);
}.

(** Sanitize sanitizes HTTP rules: the error it returns, [None] for nil. *)
Definition Sanitize (h : PortRuleHTTP) : option string :=
  let err := if decide (Path h ≠ "") then regexp_Compile (Path h) else None in
  match err with
  | Some err => Some err
  | None =>
      let err :=
        if decide (Method h ≠ "") then regexp_Compile (Method h) else None in
      match err with
      | Some err => Some err
      | None => None (* Headers are not sanitized. *)
      end
  end.
End http.

Arguments Path {K8sSecret} _.
Arguments Method {K8sSecret} _.
Arguments Host {K8sSecret} _.
Arguments Headers {K8sSecret} _.
Arguments SecretHeaders {K8sSecret} _.
Arguments Sanitize regexp_Compile {K8sSecret} h.
End http.

(** ** More of the concrete collaborators *)
Module example_api.
(** Identities are parsed from the decimal strings of three numbers. *)
#[global] Instance api : @ApiCollaborators example.collaborators := {|
  Model_ID := λ model, Some (Z.of_N (fst (model : N * gmap string example.label)));
  ParseNumericIdentity := λ s,
    if decide (s = "0") then (0%N, None)
    else if decide (s = "1") then (1%N, None)
    else if decide (s = "16777217") then (16777217%N, None)
    else (0%N, Some "invalid syntax");
  NewLabelsFromModel := λ lbls,
    list_to_map ((λ k, (k, (k, "", "unspec"))) <$> lbls);
|}.

(** A regular expression compiles unless it is an opening parenthesis. *)
Definition compile (expr : string) : option string :=
  if decide (expr = "(") then Some "missing closing )" else None.

Definition rule (path method : string) : http.PortRuleHTTP unit :=
  {| http.Path := path; http.Method := method; http.Host := "";
     http.Headers := []; http.SecretHeaders := [] |}.
End example_api.

(** * Properties of the event watcher *)
Section watcher_properties.
Context `{Collaborators}.
Implicit Types (added deleted : IdentityCache) (event : AllocatorEvent).
Implicit Types (events : list AllocatorEvent) (id : ID).

(** The guarded [delete(m, id)] of the source is a plain delete. *)
Lemma guarded_delete (m : IdentityCache) (k : NumericIdentity) :
  (if decide (is_Some (m !! k)) then delete k m else m) = delete k m.
Proof.
  case_decide as Hk; [done|].
  symmetry. apply delete_id. by apply eq_None_not_Some.
Qed.

Lemma collectEvent_Create id L added deleted :
  collectEvent (Create id L) added deleted
  = (true, <[NumericIdentity_of_ID id := L]> added,
           delete (NumericIdentity_of_ID id) deleted).
Proof. unfold collectEvent; simpl. by rewrite guarded_delete. Qed.

Lemma collectEvent_not_Create event added deleted :
  Typ event ≠ EventTypeCreate →
  collectEvent event added deleted
  = (true, delete (NumericIdentity_of_ID (Event_ID event)) added,
           <[NumericIdentity_of_ID (Event_ID event) := []]> deleted).
Proof.
  intros Hty. unfold collectEvent.
  destruct (decide (Typ event = EventTypeCreate)); [done|].
  by rewrite guarded_delete.
Qed.

Lemma collectEvent_Delete id key added deleted :
  collectEvent (Delete id key) added deleted
  = (true, delete (NumericIdentity_of_ID id) added,
           <[NumericIdentity_of_ID id := []]> deleted).
Proof. by apply collectEvent_not_Create. Qed.

(** A create event whose key is not a GlobalIdentity changes nothing. *)
Lemma collectEvent_unknown_type event added deleted :
  Typ event = EventTypeCreate →
  asGlobalIdentity (Key event) = None →
  collectEvent event added deleted = (false, added, deleted).
Proof.
  intros Hty Hkey. unfold collectEvent.
  destruct (decide (Typ event = EventTypeCreate)); [|done].
  by rewrite Hkey.
Qed.

(** One call keeps the two maps disjoint. *)
Lemma collectEvent_disjoint event added deleted :
  added ##ₘ deleted →
  (collectEvent event added deleted).1.2 ##ₘ (collectEvent event added deleted).2.
Proof.
  intros Hdisj. unfold collectEvent.
  destruct (decide (Typ event = EventTypeCreate)).
  - destruct (asGlobalIdentity (Key event)); simpl; [|done].
    rewrite guarded_delete. apply map_disjoint_insert_l. split.
    + apply lookup_delete_eq.
    + by apply map_disjoint_delete_r.
  - simpl. rewrite guarded_delete. apply map_disjoint_insert_r. split.
    + apply lookup_delete_eq.
    + by apply map_disjoint_delete_l.
Qed.

Lemma collectEvents_nil added deleted :
  collectEvents [] added deleted = (added, deleted).
Proof. done. Qed.

Lemma collectEvents_cons event events added deleted :
  collectEvents (event :: events) added deleted
  = collectEvents events (collectEvent event added deleted).1.2
                         (collectEvent event added deleted).2.
Proof.
  unfold collectEvents; simpl.
  by destruct (collectEvent event added deleted) as [[? ?] ?].
Qed.

Lemma collectEvents_app events1 events2 added deleted :
  collectEvents (events1 ++ events2) added deleted
  = collectEvents events2 (collectEvents events1 added deleted).1
                          (collectEvents events1 added deleted).2.
Proof.
  unfold collectEvents. rewrite fold_left_app.
  by destruct (fold_left _ events1 _) as [? ?].
Qed.

Lemma collectEvents_disjoint events added deleted :
  added ##ₘ deleted →
  (collectEvents events added deleted).1 ##ₘ (collectEvents events added deleted).2.
Proof.
  revert added deleted.
  induction events as [|event events IH]; intros added deleted Hdisj; [done|].
  rewrite collectEvents_cons. by apply IH, collectEvent_disjoint.
Qed.

Lemma More_disjoint events added deleted :
  added ##ₘ deleted →
  (More events added deleted).1 ##ₘ (More events added deleted).2.
Proof.
  revert added deleted.
  induction events as [|event events IH]; intros added deleted Hdisj; [done|].
  pose proof (collectEvent_disjoint event added deleted Hdisj) as Hstep.
  simpl. destruct (collectEvent event added deleted) as [[? a] d].
  destruct (Typ event); by apply IH.
Qed.

Lemma First_disjoint events added deleted rest added' deleted' :
  added ##ₘ deleted →
  First events added deleted = Some (rest, added', deleted') →
  added' ##ₘ deleted'.
Proof.
  revert added deleted.
  induction events as [|event events IH]; intros added deleted Hdisj; [done|].
  pose proof (collectEvent_disjoint event added deleted Hdisj) as Hstep.
  simpl. destruct (collectEvent event added deleted) as [[collected a] d].
  destruct (Typ event); [|by apply IH|];
    (destruct collected; [by intros [= _ <- <-]|by apply IH]).
Qed.

Lemma watch_iteration_disjoint events added deleted :
  watch_iteration events = Some (added, deleted) → added ##ₘ deleted.
Proof.
  unfold watch_iteration.
  destruct (First events ∅ ∅) as [[[rest a] d]|] eqn:HFirst; [|done].
  intros [= Hmore].
  apply First_disjoint in HFirst; [|apply map_disjoint_empty_l].
  pose proof (More_disjoint rest a d HFirst) as Hdisj.
  by rewrite Hmore in Hdisj.
Qed.
End watcher_properties.

Section watcher_claims.
Context `{Collaborators}.
Implicit Types (added deleted : IdentityCache) (events : list AllocatorEvent).

(** C1. Whatever events [collectEvent] collects into two maps that start
    empty, no numeric identity ends up a key of both: the maps are disjoint
    after any sequence of calls, and so are the two maps an iteration of the
    watcher passes to UpdateIdentities. *)
Theorem collectEvent_added_deleted_disjoint events :
  (collectEvents events ∅ ∅).1 ##ₘ (collectEvents events ∅ ∅).2
  ∧ (∀ k : NumericIdentity,
       ¬ (is_Some ((collectEvents events ∅ ∅).1 !! k)
          ∧ is_Some ((collectEvents events ∅ ∅).2 !! k)))
  ∧ (∀ added deleted,
       watch_iteration events = Some (added, deleted) →
       ∀ k : NumericIdentity,
         ¬ (is_Some (added !! k) ∧ is_Some (deleted !! k))).
Proof.
  assert (Hdisj : (collectEvents events ∅ ∅).1 ##ₘ (collectEvents events ∅ ∅).2)
    by apply collectEvents_disjoint, map_disjoint_empty_l.
  split; [done|]. split.
  - intros k [[x Hx] [y Hy]].
    by eapply map_disjoint_spec.
  - intros added deleted Hiter k [[x Hx] [y Hy]].
    apply watch_iteration_disjoint in Hiter.
    by eapply map_disjoint_spec.
Qed.

(** C2. A create event for [id] with labels [L] that is collected, then any
    events, then a delete event for the same [id]: once the delete event is
    collected, [id] is a key of [deleted] with no labels and is not a key of
    [added], whatever the two maps held before. *)
Theorem Create_then_Delete_only_deleted (id : ID) (L : LabelArray)
    (key : AllocatorKey) (between : list AllocatorEvent) added deleted :
  let batch :=
    collectEvents (Create id L :: between ++ [Delete id key]) added deleted in
  batch.1 !! NumericIdentity_of_ID id = None
  ∧ batch.2 !! NumericIdentity_of_ID id = Some [].
Proof.
  simpl. rewrite app_comm_cons, collectEvents_app.
  rewrite collectEvents_cons, collectEvents_nil, collectEvent_Delete; simpl.
  split; [apply lookup_delete_eq | apply lookup_insert_eq].
Qed.

(** C3. A delete event for [id], then any events, then a create event for
    the same [id] with labels [L] that is collected: once the create event
    is collected, [id] is a key of [added] with the labels [L] and is not a
    key of [deleted], whatever the two maps held before. *)
Theorem Delete_then_Create_only_added (id : ID) (L : LabelArray)
    (key : AllocatorKey) (between : list AllocatorEvent) added deleted :
  let batch :=
    collectEvents (Delete id key :: between ++ [Create id L]) added deleted in
  batch.1 !! NumericIdentity_of_ID id = Some L
  ∧ batch.2 !! NumericIdentity_of_ID id = None.
Proof.
  simpl. rewrite app_comm_cons, collectEvents_app.
  rewrite collectEvents_cons, collectEvents_nil, collectEvent_Create; simpl.
  split; [apply lookup_insert_eq | apply lookup_delete_eq].
Qed.

(** C4. A delete event is always recorded: on any two maps, [collectEvent]
    reports the event as collected and leaves [id] in [deleted] with no
    labels; this holds after any earlier events of the batch, and a batch
    made of the delete event alone is issued as an empty [added] and [id]
    in [deleted]. *)
Theorem Delete_always_recorded (id : ID) (key : AllocatorKey) :
  (∀ added deleted,
     (collectEvent (Delete id key) added deleted).1.1 = true
     ∧ (collectEvent (Delete id key) added deleted).2
         !! NumericIdentity_of_ID id = Some []
     ∧ (collectEvent (Delete id key) added deleted).1.2
         !! NumericIdentity_of_ID id = None)
  ∧ (∀ before : list AllocatorEvent,
       (collectEvents (before ++ [Delete id key]) ∅ ∅).2
         !! NumericIdentity_of_ID id = Some [])
  ∧ watch_iteration [Delete id key]
    = Some (∅, {[ NumericIdentity_of_ID id := [] ]}).
Proof.
  split; [|split].
  - intros added deleted. rewrite collectEvent_Delete; simpl.
    split; [done|]. split; [apply lookup_insert_eq | apply lookup_delete_eq].
  - intros before. rewrite collectEvents_app.
    rewrite collectEvents_cons, collectEvents_nil, collectEvent_Delete; simpl.
    apply lookup_insert_eq.
  - unfold watch_iteration, First.
    change (Typ (Delete id key)) with EventTypeDelete; cbv beta iota.
    rewrite collectEvent_Delete; simpl. by rewrite delete_empty.
Qed.
End watcher_claims.

(** The scenario of the specification: Create(7, app=foo), Create(8, app=bar)
    and Delete(7), all queued, are issued as one batch. *)
Example watch_iteration_scenario :
  watch_iteration [ Create 7 (example.app "foo"); Create 8 (example.app "bar");
                    Delete 7 KeyNil ]
  = Some ({[ 8%N := example.app "bar" ]}, {[ 7%N := [] ]}).
Proof. by vm_compute. Qed.

(** * Properties of the read path *)
Section cache_properties.
Context `{Collaborators}.
Implicit Types (cache : IdentityCache) (m : CachingIdentityAllocator).
Implicit Types (a : allocator.Allocator) (l : option localIdentityCache.t).

(** A loop that stores one entry per element builds the map of the
    elements, later ones first, over what was there. *)
Lemma fold_left_insert {X : Type} (key : X → NumericIdentity) (val : X → LabelArray)
    (xs : list X) cache :
  fold_left (λ cache x, <[key x := val x]> cache) xs cache
  = list_to_map (reverse ((λ x, (key x, val x)) <$> xs)) ∪ cache.
Proof.
  revert cache. induction xs as [|x xs IH]; intros cache.
  - symmetry. apply (left_id_L ∅ (∪)).
  - cbn [fold_left]. rewrite IH, fmap_cons, reverse_cons, list_to_map_app.
    rewrite <-(assoc_L (∪)). f_equal.
    change (list_to_map [(key x, val x)]) with (<[key x := val x]> (∅ : IdentityCache)).
    by rewrite <-insert_union_l, (left_id_L ∅ (∪)).
Qed.

Lemma range_ReservedIdentityCache cache :
  map_fold (λ key identity cache, <[key := labelsOf identity]> cache)
           cache ReservedIdentityCache
  = reservedEntries ∪ cache.
Proof.
  unfold reservedEntries.
  apply (map_fold_weak_ind
           (λ r (rm : gmap NumericIdentity Identity), r = (labelsOf <$> rm) ∪ cache)).
  - by rewrite fmap_empty, (left_id_L ∅ (∪)).
  - intros k i rm r Hk ->. by rewrite fmap_insert, insert_union_l.
Qed.

(** The callback of [GetIdentityCache] stores the recognized entries and
    passes over the others. *)
Lemma ForeachCache_recognized a cache :
  allocator.ForeachCache a
    (λ id val cache,
       match val with
       | KeyNil => cache
       | _ =>
           match asGlobalIdentity val with
           | Some gi =>
               <[NumericIdentity_of_ID id := GlobalIdentity_LabelArray gi]> cache
           | None => cache
           end
       end)
    cache
  = allocatorEntries a ∪ cache.
Proof.
  unfold allocator.ForeachCache, allocatorEntries.
  generalize (allocator.entries a) as es. intros es. revert cache.
  induction es as [|[id val] es IH]; intros cache; simpl.
  - symmetry. apply (left_id_L ∅ (∪)).
  - rewrite IH. destruct val as [|gi|ty]; simpl; [done| |done].
    rewrite reverse_cons, list_to_map_app.
    rewrite <-(assoc_L (∪)). f_equal.
    change (list_to_map [?p]) with (<[p.1 := p.2]> (∅ : IdentityCache)).
    by rewrite <-insert_union_l, (left_id_L ∅ (∪)).
Qed.

(** [GetIdentityCache] in one equation: the local entries over the reserved
    entries over the recognized entries of the allocator (none for a nil
    allocator). *)
Lemma GetIdentityCache_eq m :
  GetIdentityCache m
  = Ok (localEntries (localIdentities m)
        ∪ (reservedEntries
           ∪ match IdentityAllocator m with
             | Some a => allocatorEntries a
             | None => ∅
             end)).
Proof.
  unfold GetIdentityCache. f_equal.
  fold labelsOf. rewrite range_ReservedIdentityCache.
  unfold localEntries, localList.
  destruct (localIdentities m) as [ls|].
  - rewrite (fold_left_insert Identity_ID labelsOf). f_equal. f_equal.
    destruct (IdentityAllocator m) as [a|]; [|done].
    by rewrite ForeachCache_recognized, (right_id_L ∅ (∪)).
  - etrans; [|symmetry; apply (left_id_L ∅ (∪))]. f_equal.
    destruct (IdentityAllocator m) as [a|]; [|done].
    by rewrite ForeachCache_recognized, (right_id_L ∅ (∪)).
Qed.

Lemma lookup_localEntries l k v :
  localEntries l !! k = Some v →
  ∃ i, i ∈ localList l ∧ Identity_ID i = k ∧ v = labelsOf i.
Proof.
  unfold localEntries. intros Hk%elem_of_list_to_map_2.
  apply elem_of_reverse, list_elem_of_fmap in Hk as (i & [= -> ->] & Hi).
  by exists i.
Qed.

Lemma localEntries_is_Some l i :
  i ∈ localList l → is_Some (localEntries l !! Identity_ID i).
Proof.
  intros Hi. unfold localEntries.
  apply not_eq_None_Some. intros Hnone%not_elem_of_list_to_map.
  apply Hnone. rewrite <-fmap_reverse, <-list_fmap_compose.
  apply list_elem_of_fmap. exists i. split; [done|]. by apply elem_of_reverse.
Qed.

Lemma lookup_allocatorEntries a k v :
  allocatorEntries a !! k = Some v →
  ∃ id gi, (id, KeyGlobalIdentity gi) ∈ allocator.entries a
           ∧ NumericIdentity_of_ID id = k ∧ v = GlobalIdentity_LabelArray gi.
Proof.
  unfold allocatorEntries. intros Hk%elem_of_list_to_map_2.
  apply elem_of_reverse, list_elem_of_omap in Hk as ([id val] & Hin & Hrec).
  unfold recognized in Hrec; simpl in Hrec.
  destruct val as [|gi|ty]; [done| |done].
  injection Hrec as <- <-. by exists id, gi.
Qed.

Lemma allocatorEntries_is_Some a id gi :
  (id, KeyGlobalIdentity gi) ∈ allocator.entries a →
  is_Some (allocatorEntries a !! NumericIdentity_of_ID id).
Proof.
  intros Hin. unfold allocatorEntries.
  apply not_eq_None_Some. intros Hnone%not_elem_of_list_to_map.
  apply Hnone. apply list_elem_of_fmap.
  exists (NumericIdentity_of_ID id, GlobalIdentity_LabelArray gi).
  split; [done|]. apply elem_of_reverse, list_elem_of_omap.
  by exists (id, KeyGlobalIdentity gi).
Qed.

Lemma lookup_reservedEntries k v :
  reservedEntries !! k = Some v ↔
  ∃ i, ReservedIdentityCache !! k = Some i ∧ v = labelsOf i.
Proof.
  unfold reservedEntries. rewrite lookup_fmap_Some.
  split; intros (i & ? & ?); by exists i.
Qed.

(** Entries that are not recognized contribute nothing. *)
Lemma allocatorEntries_filter a :
  allocatorEntries
    (withEntries a (filter (λ e, is_Some (recognized e)) (allocator.entries a)))
  = allocatorEntries a.
Proof.
  unfold allocatorEntries; simpl. f_equal. f_equal.
  induction (allocator.entries a) as [|e es IH]; [done|].
  rewrite filter_cons.
  destruct (decide (is_Some (recognized e))) as [[p Hp]|Hnone].
  - cbn. by rewrite Hp, IH.
  - apply eq_None_not_Some in Hnone. cbn. by rewrite Hnone.
Qed.
End cache_properties.

Section lookup_properties.
Context `{Collaborators}.
Implicit Types (m : CachingIdentityAllocator) (id : NumericIdentity).

(** With an allocator and a local store, [LookupIdentityByID] asks the
    reserved table, then the local store, then the allocator. *)
Lemma LookupIdentityByID_configured (a : allocator.Allocator)
    (l : localIdentityCache.t) id :
  id ≠ IdentityUnknown →
  LookupIdentityByID {| IdentityAllocator := Some a; localIdentities := Some l |} id
  = Ok match LookupReservedIdentity id with
       | Some i => Some i
       | None =>
           match localIdentityCache.lookupByID l id with
           | Some i => Some i
           | None =>
               match allocator.GetByID a (ID_of_NumericIdentity id) with
               | (KeyGlobalIdentity gi, None) =>
                   Some (NewIdentityFromLabelArray id (GlobalIdentity_LabelArray gi))
               | _ => None
               end
           end
       end.
Proof.
  intros Hid. unfold LookupIdentityByID.
  destruct (decide (id = IdentityUnknown)); [done|].
  destruct (LookupReservedIdentity id); [done|]; simpl.
  destruct (localIdentityCache.lookupByID l id); [done|].
  by destruct (allocator.GetByID a (ID_of_NumericIdentity id))
    as [[|gi|ty] [err|]].
Qed.

(** Without an allocator, the function returns nil for every identity past
    the reserved table: the local store is not read. *)
Lemma LookupIdentityByID_nil_allocator (l : option localIdentityCache.t) id :
  id ≠ IdentityUnknown →
  LookupReservedIdentity id = None →
  LookupIdentityByID {| IdentityAllocator := None; localIdentities := l |} id
  = Ok None.
Proof.
  intros Hid Hres. unfold LookupIdentityByID.
  destruct (decide (id = IdentityUnknown)); [done|].
  by rewrite Hres.
Qed.
End lookup_properties.

Section cache_claims.
Context `{Collaborators}.
Implicit Types (m : CachingIdentityAllocator) (cache : IdentityCache).

(** C6. Without a distributed allocator, [GetIdentityCache] returns (it
    does not panic) the union of the reserved table and of the identities of
    the node-local store, each with its labels: the keys are the reserved
    keys and the local identities' IDs, every value is the labels of a
    reserved or local identity of that key, and a local identity takes
    precedence over a reserved one of the same key. *)
Theorem GetIdentityCache_nil_allocator (l : option localIdentityCache.t) :
  ∃ cache,
    GetIdentityCache {| IdentityAllocator := None; localIdentities := l |} = Ok cache
    ∧ cache = localEntries l ∪ reservedEntries
    ∧ (∀ k : NumericIdentity,
         is_Some (cache !! k) ↔
         is_Some (ReservedIdentityCache !! k)
         ∨ ∃ i, i ∈ localList l ∧ Identity_ID i = k)
    ∧ (∀ (k : NumericIdentity) v,
         cache !! k = Some v →
         (∃ i, ReservedIdentityCache !! k = Some i ∧ v = labelsOf i)
         ∨ (∃ i, i ∈ localList l ∧ Identity_ID i = k ∧ v = labelsOf i)).
Proof.
  eexists. split; [apply GetIdentityCache_eq|]. simpl.
  rewrite (right_id_L ∅ (∪)). split; [done|]. split.
  - intros k. rewrite lookup_union_is_Some. split.
    + intros [[v Hv]|[v Hv]].
      * right. apply lookup_localEntries in Hv as (i & ? & ? & _). by exists i.
      * left. apply lookup_reservedEntries in Hv as (i & -> & _). by eexists.
    + intros [[i Hi]|(i & Hi & <-)].
      * right. exists (labelsOf i). apply lookup_reservedEntries. by exists i.
      * left. by apply localEntries_is_Some.
  - intros k v [Hv|[_ Hv]]%lookup_union_Some_raw.
    + right. by apply lookup_localEntries.
    + left. by apply lookup_reservedEntries.
Qed.

(** C9. With a distributed allocator, [GetIdentityCache] returns the local
    entries over the reserved entries over the recognized entries of the
    allocator's cache.  An entry that is not a GlobalIdentity is left out:
    the result is the one for the cache without such entries, and every key
    of the result comes from a recognized entry, a reserved identity or a
    local identity.  It stops nothing: every recognized entry, every
    reserved identity and every local identity has its key in the result. *)
Theorem GetIdentityCache_skips_unrecognized (a : allocator.Allocator)
    (l : option localIdentityCache.t) :
  ∃ cache,
    GetIdentityCache {| IdentityAllocator := Some a; localIdentities := l |} = Ok cache
    ∧ cache = localEntries l ∪ (reservedEntries ∪ allocatorEntries a)
    ∧ GetIdentityCache
        {| IdentityAllocator :=
             Some (withEntries a (filter (λ e, is_Some (recognized e))
                                         (allocator.entries a)));
           localIdentities := l |} = Ok cache
    ∧ (∀ id gi, (id, KeyGlobalIdentity gi) ∈ allocator.entries a →
                is_Some (cache !! NumericIdentity_of_ID id))
    ∧ (∀ k : NumericIdentity,
         is_Some (ReservedIdentityCache !! k) → is_Some (cache !! k))
    ∧ (∀ i, i ∈ localList l → is_Some (cache !! Identity_ID i))
    ∧ (∀ (k : NumericIdentity) v,
         cache !! k = Some v →
         (∃ id gi, (id, KeyGlobalIdentity gi) ∈ allocator.entries a
                   ∧ NumericIdentity_of_ID id = k
                   ∧ v = GlobalIdentity_LabelArray gi)
         ∨ (∃ i, ReservedIdentityCache !! k = Some i ∧ v = labelsOf i)
         ∨ (∃ i, i ∈ localList l ∧ Identity_ID i = k ∧ v = labelsOf i)).
Proof.
  eexists. split; [apply GetIdentityCache_eq|]. simpl.
  split; [done|]. split; [|split; [|split; [|split]]].
  - by rewrite GetIdentityCache_eq; simpl; rewrite allocatorEntries_filter.
  - intros id gi Hin. rewrite !lookup_union_is_Some.
    right; right. by eapply allocatorEntries_is_Some.
  - intros k [i Hi]. rewrite !lookup_union_is_Some.
    right; left. exists (labelsOf i). apply lookup_reservedEntries. by exists i.
  - intros i Hi. rewrite lookup_union_is_Some.
    left. by apply localEntries_is_Some.
  - intros k v [Hv|[_ [Hv|[_ Hv]]%lookup_union_Some_raw]]%lookup_union_Some_raw.
    + right; right. by apply lookup_localEntries.
    + right; left. by apply lookup_reservedEntries.
    + left. by apply lookup_allocatorEntries.
Qed.

(** C10. [GetIdentities] calls through both collaborators without a nil
    check: it panics exactly when the distributed allocator or the local
    store is nil, and otherwise returns; [GetIdentityCache] checks both and
    never panics. *)
Theorem GetIdentities_no_nil_guard m :
  (GetIdentities m = Panic ↔
   IdentityAllocator m = None ∨ localIdentities m = None)
  ∧ (∀ l, GetIdentities {| IdentityAllocator := None; localIdentities := l |}
          = Panic)
  ∧ (∀ a, GetIdentities {| IdentityAllocator := a; localIdentities := None |}
          = Panic)
  ∧ GetIdentityCache m ≠ Panic.
Proof.
  split; [|split; [|split]].
  - unfold GetIdentities.
    destruct (IdentityAllocator m) as [a|], (localIdentities m) as [l|]; simpl;
      split; try done; try (by intros [?|?]); auto.
  - done.
  - by intros [a|].
  - by rewrite GetIdentityCache_eq.
Qed.

(** C7 (amended). [LookupIdentity] returns the reserved identity of the
    labels when there is one, in every state.  When the labels are not
    reserved it calls the local store, which has to be set: it then returns
    the identity the local store has for the labels; else, what the
    distributed allocator answers: nil when there is no allocator, when [Get]
    fails and when [Get] answers NoID, and the identity of the ID otherwise.
    It panics exactly when the labels are not reserved and the local store is
    nil. *)
Theorem LookupIdentity_resolution_every_state m (lbls : Labels) :
  let key :=
    KeyGlobalIdentity {| GlobalIdentity_LabelArray := Labels_LabelArray lbls |} in
  (∀ i, LookupReservedIdentityByLabels lbls = Some i →
        LookupIdentity m lbls = Ok (Some i))
  ∧ (∀ l : localIdentityCache.t,
       LookupReservedIdentityByLabels lbls = None →
       localIdentities m = Some l →
       (∀ i, localIdentityCache.lookup l lbls = Some i →
             LookupIdentity m lbls = Ok (Some i))
       ∧ (localIdentityCache.lookup l lbls = None →
          match IdentityAllocator m with
          | None => LookupIdentity m lbls = Ok None
          | Some a =>
              (∀ id err, allocator.Get a key = (id, Some err) →
                         LookupIdentity m lbls = Ok None)
              ∧ (allocator.Get a key = (NoID, None) →
                 LookupIdentity m lbls = Ok None)
              ∧ (∀ id, allocator.Get a key = (id, None) → id ≠ NoID →
                       LookupIdentity m lbls
                       = Ok (Some (NewIdentityFromLabelArray
                                     (NumericIdentity_of_ID id)
                                     (Labels_LabelArray lbls))))
          end))
  ∧ (LookupIdentity m lbls = Panic ↔
     LookupReservedIdentityByLabels lbls = None ∧ localIdentities m = None).
Proof.
  simpl. unfold LookupIdentity. split; [|split].
  - by intros i ->.
  - intros l -> ->; simpl. split.
    + by intros i ->.
    + intros ->. destruct (IdentityAllocator m) as [a|]; [|done].
      split; [|split].
      * by intros id err ->.
      * intros ->. by rewrite decide_True.
      * intros id -> Hid. by rewrite decide_False.
  - destruct (LookupReservedIdentityByLabels lbls); [by split; [|intros []]|].
    destruct (localIdentities m) as [l|]; simpl; [|done].
    split; [|by intros []]. intros Hpanic. exfalso.
    destruct (localIdentityCache.lookup l lbls); [done|].
    destruct (IdentityAllocator m) as [a|]; [|done].
    destruct (allocator.Get a _) as [id [err|]]; [done|].
    by case_decide.
Qed.

(** C8. [LookupIdentityByID] on IdentityUnknown returns the variable
    [unknownIdentity], whatever the allocator and the local store are (nil
    or not) and whatever the reserved table holds. *)
Theorem LookupIdentityByID_unknown m :
  LookupIdentityByID m IdentityUnknown = Ok (Some unknownIdentity).
Proof. unfold LookupIdentityByID. by rewrite decide_True. Qed.
End cache_claims.

(** C5. [LookupIdentityByID] returns when the allocator is nil before it
    reads the local store.  With no allocator and the local store of
    [example] (which holds 16777217, an identity that is neither
    IdentityUnknown nor reserved), the lookup of 16777217 gives nil, while the
    lookup of the same identity by its labels finds it. *)
Theorem LookupIdentityByID_nil_allocator_skips_local_store :
  let m := {| IdentityAllocator := None;
              localIdentities := Some example.local_store |} in
  localIdentityCache.lookupByID example.local_store 16777217 = Some example.cidr
  ∧ LookupIdentityByID m 16777217 = Ok None
  ∧ LookupIdentity m example.cidr_labels = Ok (Some example.cidr).
Proof. by vm_compute. Qed.

(** C7, counterexample.  With no allocator and no local store, the lookup
    of labels that are not reserved (here, no label at all) does not give
    nil: it panics on the call through the nil local store. *)
Lemma LookupIdentity_nil_local_store_panics :
  let m := {| IdentityAllocator := None; localIdentities := None |} in
  LookupReservedIdentityByLabels (∅ : gmap string example.label) = None
  ∧ LookupIdentity m (∅ : gmap string example.label) = Panic
  ∧ LookupIdentity m (∅ : gmap string example.label) ≠ Ok None.
Proof.
  assert (Hres : LookupReservedIdentityByLabels (∅ : gmap string example.label)
                 = None).
  { simpl. apply decide_False. intros Heq.
    apply (f_equal (λ lbls : gmap string example.label, lbls !! "world")) in Heq.
    unfold example.world_labels in Heq.
    by rewrite lookup_empty, lookup_singleton_eq in Heq. }
  simpl. split; [done|]. unfold LookupIdentity. by rewrite Hres.
Qed.

(** The scenario of the specification for [GetIdentityCache], with an entry
    of a foreign type in the allocator's cache and one local identity. *)
Example GetIdentityCache_scenario :
  GetIdentityCache {| IdentityAllocator := Some example.kvstore_allocator;
                      localIdentities := Some example.local_store |}
  = Ok {[ 1%N := [("world", "", "reserved")];
          7%N := example.app "foo";
          8%N := example.app "bar";
          16777217%N := [("cidr:10.0.0.1/32", "", "cidr")] ]}.
Proof. by vm_compute. Qed.

(** * More on the event watcher *)
Section watcher_batches.
Context `{Collaborators}.
Implicit Types (added deleted : IdentityCache) (event : AllocatorEvent).
Implicit Types (events : list AllocatorEvent) (k : NumericIdentity).

(** [collectEvent] by the shape of the event. *)
Lemma collectEvent_cases event added deleted :
  collectEvent event added deleted
  = if decide (Typ event = EventTypeCreate) then
      match asGlobalIdentity (Key event) with
      | Some gi =>
          (true, <[eventKey event := GlobalIdentity_LabelArray gi]> added,
                 delete (eventKey event) deleted)
      | None => (false, added, deleted)
      end
    else (true, delete (eventKey event) added,
                <[eventKey event := []]> deleted).
Proof.
  unfold collectEvent, eventKey. case_decide.
  - destruct (asGlobalIdentity (Key event)); [|done]. by rewrite guarded_delete.
  - by rewrite guarded_delete.
Qed.

Lemma pair_map_eq (r r' : IdentityCache * IdentityCache) :
  (∀ k, r.1 !! k = r'.1 !! k ∧ r.2 !! k = r'.2 !! k) → r = r'.
Proof.
  destruct r as [a d], r' as [a' d']; simpl. intros Hk.
  f_equal; apply map_eq; intros k; apply Hk.
Qed.

(** An event that is not collected changes neither map. *)
Lemma collectEvent_not_collected event added deleted :
  ¬ collected event →
  collectEvent event added deleted = (false, added, deleted).
Proof.
  unfold collected. intros Hnot. rewrite collectEvent_cases.
  case_decide as Hty; [|tauto].
  destruct (asGlobalIdentity (Key event)) eqn:Hkey; [|done].
  destruct Hnot. right. by eexists.
Qed.

(** A call leaves every key but the event's as it was. *)
Lemma collectEvent_other_key event added deleted k :
  k ≠ eventKey event →
  (collectEvent event added deleted).1.2 !! k = added !! k
  ∧ (collectEvent event added deleted).2 !! k = deleted !! k.
Proof.
  intros Hk. rewrite collectEvent_cases.
  case_decide; [destruct (asGlobalIdentity (Key event))|]; simpl;
    by rewrite ?lookup_insert_ne, ?lookup_delete_ne.
Qed.

(** What a collected event leaves under its own key does not depend on the
    maps. *)
Lemma collectEvent_own_key event added deleted added' deleted' :
  (collectEvent event added deleted).1.2 !! eventKey event
  = (collectEvent event added' deleted').1.2 !! eventKey event
  ∧ (collectEvent event added deleted).2 !! eventKey event
    = (collectEvent event added' deleted').2 !! eventKey event
  ∨ ¬ collected event.
Proof.
  destruct (decide (collected event)) as [Hc|Hc]; [left|by right].
  rewrite !collectEvent_cases.
  case_decide as Hty; [destruct (asGlobalIdentity (Key event)) eqn:Hkey|]; simpl.
  - by rewrite !lookup_insert_eq, !lookup_delete_eq.
  - destruct Hc as [?|[? ?]]; congruence.
  - by rewrite !lookup_insert_eq, !lookup_delete_eq.
Qed.

(** Under a given key, a sequence of events either leaves both maps as they
    were or leaves something that does not depend on them. *)
Lemma collectEvents_key events k :
  (∀ added deleted,
     (collectEvents events added deleted).1 !! k = added !! k
     ∧ (collectEvents events added deleted).2 !! k = deleted !! k)
  ∨ (∀ added deleted added' deleted',
       (collectEvents events added deleted).1 !! k
       = (collectEvents events added' deleted').1 !! k
       ∧ (collectEvents events added deleted).2 !! k
         = (collectEvents events added' deleted').2 !! k).
Proof.
  induction events as [|event events [Hid|Hconst]].
  - by left.
  - destruct (decide (k = eventKey event)) as [->|Hk].
    + destruct (decide (collected event)) as [Hc|Hc].
      * right. intros added deleted added' deleted'.
        rewrite !collectEvents_cons.
        destruct (Hid (collectEvent event added deleted).1.2
                      (collectEvent event added deleted).2) as [-> ->].
        destruct (Hid (collectEvent event added' deleted').1.2
                      (collectEvent event added' deleted').2) as [-> ->].
        by destruct (collectEvent_own_key event added deleted added' deleted').
      * left. intros added deleted. rewrite collectEvents_cons.
        rewrite collectEvent_not_collected by done. apply Hid.
    + left. intros added deleted. rewrite collectEvents_cons.
      destruct (Hid (collectEvent event added deleted).1.2
                    (collectEvent event added deleted).2) as [-> ->].
      by apply collectEvent_other_key.
  - right. intros added deleted added' deleted'.
    rewrite !collectEvents_cons. apply Hconst.
Qed.

(** Events that are not collected, or are filed under other keys, leave the
    key as it was. *)
Lemma collectEvents_untouched events k added deleted :
  Forall (λ event, collected event → eventKey event ≠ k) events →
  (collectEvents events added deleted).1 !! k = added !! k
  ∧ (collectEvents events added deleted).2 !! k = deleted !! k.
Proof.
  intros Hall. revert added deleted.
  induction Hall as [|event events Hevent _ IH]; intros added deleted; [done|].
  rewrite collectEvents_cons.
  destruct (IH (collectEvent event added deleted).1.2
               (collectEvent event added deleted).2) as [-> ->].
  destruct (decide (collected event)) as [Hc|Hc].
  - apply collectEvent_other_key. intros ->. by apply Hevent.
  - by rewrite collectEvent_not_collected.
Qed.

(** Two events filed under different keys can be collected in either
    order. *)
Lemma collectEvent_swap event1 event2 added deleted :
  eventKey event1 ≠ eventKey event2 →
  collectEvents [event1; event2] added deleted
  = collectEvents [event2; event1] added deleted.
Proof.
  intros Hne. rewrite !collectEvents_cons, !collectEvents_nil.
  apply pair_map_eq. intros k.
  rewrite !collectEvent_cases.
  repeat case_decide; repeat destruct (asGlobalIdentity _); simpl;
    rewrite ?lookup_insert, ?lookup_delete; repeat case_decide;
    repeat (rewrite lookup_insert || rewrite lookup_delete);
    repeat case_decide; split; congruence.
Qed.
End watcher_batches.

Section watcher_iteration.
Context `{Collaborators}.
Implicit Types (added deleted : IdentityCache) (event : AllocatorEvent).
Implicit Types (events : list AllocatorEvent) (k : NumericIdentity).

Lemma collectEvent_collected event added deleted :
  collected event → (collectEvent event added deleted).1.1 = true.
Proof.
  intros Hc. rewrite collectEvent_cases.
  case_decide as Hty; [|done].
  destruct (asGlobalIdentity (Key event)) eqn:Hkey; [done|].
  destruct Hc as [?|[? ?]]; congruence.
Qed.

Lemma collectEvents_skip event events added deleted :
  ¬ collected event →
  collectEvents (event :: events) added deleted
  = collectEvents events added deleted.
Proof.
  intros Hc. by rewrite collectEvents_cons, collectEvent_not_collected.
Qed.

(** The loop More collects the create and delete events and passes over
    the others. *)
Lemma More_collectEvents events added deleted :
  More events added deleted
  = collectEvents (filter collectable events) added deleted.
Proof.
  revert added deleted.
  induction events as [|event events IH]; intros added deleted; [done|].
  rewrite filter_cons. cbn [More].
  destruct (decide (collectable event)) as [[Hty Hc]|Hnot].
  - rewrite collectEvents_cons, <-IH.
    destruct (collectEvent event added deleted) as [[? a] d]; simpl.
    by destruct (Typ event).
  - destruct (decide (collected event)) as [Hc|Hc].
    + destruct (Typ event) eqn:Hty; try done; destruct Hnot; split; congruence.
    + rewrite (collectEvent_not_collected _ _ _ Hc).
      by destruct (Typ event).
Qed.

(** The loop First stops at the first event that is collected: the maps it
    leaves to More are the maps More would have built from the start. *)
Lemma First_More events added deleted :
  match First events added deleted with
  | Some (rest, added', deleted') =>
      Exists collectable events
      ∧ More rest added' deleted' = More events added deleted
  | None => ¬ Exists collectable events
  end.
Proof.
  induction events as [|event events IH]; [by intros ?%Exists_nil|].
  cbn [First More].
  destruct (decide (collectable event)) as [[Hty Hc]|Hnot].
  - pose proof (collectEvent_collected event added deleted Hc) as Htrue.
    destruct (collectEvent event added deleted) as [[collected' a] d].
    simpl in Htrue; subst collected'.
    destruct (Typ event) eqn:Hty'; [|congruence|];
      (split; [left; split; [congruence|done]|done]).
  - assert (First events added deleted
            = match Typ event with
              | EventTypeModify => First events added deleted
              | _ => let '(c, a, d) := collectEvent event added deleted in
                     if c then Some (events, a, d) else First events a d
              end
            ∧ More events added deleted
              = match Typ event with
                | EventTypeModify => More events added deleted
                | _ => let '(_, a, d) := collectEvent event added deleted in
                       More events a d
                end) as [<- <-].
    { destruct (decide (collected event)) as [Hc|Hc].
      - destruct (Typ event) eqn:Hty; try done; destruct Hnot; split; congruence.
      - rewrite (collectEvent_not_collected _ _ _ Hc).
        by destruct (Typ event). }
    destruct (First events added deleted) as [[[rest a] d]|].
    + destruct IH as [Hex Hmore]. split; [by right|done].
    + intros [?|?]%Exists_cons; tauto.
Qed.

Lemma watch_iteration_collectEvents events :
  watch_iteration events
  = if decide (Exists collectable events)
    then Some (collectEvents (filter collectable events) ∅ ∅)
    else None.
Proof.
  unfold watch_iteration.
  pose proof (First_More events ∅ ∅) as HFirst.
  destruct (First events ∅ ∅) as [[[rest a] d]|].
  - destruct HFirst as [Hex Hmore].
    rewrite decide_True by done. by rewrite Hmore, More_collectEvents.
  - by rewrite decide_False.
Qed.

(** The keys of the two maps after a call. *)
Lemma collectEvent_dom event added deleted :
  collected event →
  dom (collectEvent event added deleted).1.2
  ∪ dom (collectEvent event added deleted).2
  = {[ eventKey event ]} ∪ (dom added ∪ dom deleted).
Proof.
  intros Hc. rewrite collectEvent_cases.
  case_decide as Hty; [destruct (asGlobalIdentity (Key event)) eqn:Hkey|]; simpl.
  - rewrite dom_insert_L, dom_delete_L. apply set_eq. intros x.
    rewrite !elem_of_union, elem_of_difference, elem_of_singleton.
    destruct (decide (x = eventKey event)); tauto.
  - destruct Hc as [?|[? ?]]; congruence.
  - rewrite dom_insert_L, dom_delete_L. apply set_eq. intros x.
    rewrite !elem_of_union, elem_of_difference, elem_of_singleton.
    destruct (decide (x = eventKey event)); tauto.
Qed.

Lemma collectEvents_dom events added deleted :
  dom (collectEvents events added deleted).1
  ∪ dom (collectEvents events added deleted).2
  = list_to_set (eventKey <$> filter collected events)
    ∪ (dom added ∪ dom deleted).
Proof.
  revert added deleted.
  induction events as [|event events IH]; intros added deleted.
  - simpl. by rewrite (left_id_L ∅ (∪)).
  - rewrite filter_cons.
    destruct (decide (collected event)) as [Hc|Hc].
    + rewrite collectEvents_cons, IH, collectEvent_dom by done.
      rewrite fmap_cons, list_to_set_cons. apply set_eq. intros x.
      rewrite !elem_of_union. tauto.
    + by rewrite collectEvents_skip.
Qed.

Lemma filter_collected_collectable events :
  filter collected (filter collectable events) = filter collectable events.
Proof.
  induction events as [|event events IH]; [done|].
  rewrite filter_cons.
  destruct (decide (collectable event)) as [[Hty Hc]|Hnot]; [|done].
  rewrite filter_cons, decide_True by done. by rewrite IH.
Qed.

(** The label arrays of [deleted] stay empty. *)
Lemma collectEvents_deleted_empty events added deleted :
  map_Forall (λ _ v, v = []) deleted →
  map_Forall (λ _ v, v = []) (collectEvents events added deleted).2.
Proof.
  revert added deleted.
  induction events as [|event events IH]; intros added deleted Hd; [done|].
  rewrite collectEvents_cons. apply IH. rewrite collectEvent_cases.
  case_decide; [destruct (asGlobalIdentity (Key event))|]; simpl.
  - by apply map_Forall_delete.
  - done.
  - by apply map_Forall_insert_2.
Qed.
End watcher_iteration.

Section watcher_extras.
Context `{Collaborators}.
Implicit Types (added deleted : IdentityCache) (event : AllocatorEvent).
Implicit Types (events : list AllocatorEvent) (k : NumericIdentity).

(** X1. [collectEvent] returns true exactly for the events that are not
    create events with a key of a foreign type, and when it returns false
    both maps are as they were. *)
Theorem collectEvent_reports_collected event added deleted :
  ((collectEvent event added deleted).1.1 = true ↔ collected event)
  ∧ ((collectEvent event added deleted).1.1 = false →
     (collectEvent event added deleted).1.2 = added
     ∧ (collectEvent event added deleted).2 = deleted).
Proof.
  destruct (decide (collected event)) as [Hc|Hc].
  - rewrite collectEvent_collected by done. by split.
  - rewrite collectEvent_not_collected by done. simpl. by split.
Qed.

(** X2. Collecting a sequence of events a second time changes nothing: the
    two maps after [events ++ events] are the maps after [events]. *)
Theorem collectEvents_replay events added deleted :
  collectEvents (events ++ events) added deleted
  = collectEvents events added deleted.
Proof.
  rewrite collectEvents_app. apply pair_map_eq. intros k.
  destruct (collectEvents_key events k) as [Hid|Hconst].
  - apply Hid.
  - apply Hconst.
Qed.

(** X3. Events filed under pairwise different keys can be collected in any
    order: every permutation of them builds the same two maps. *)
Theorem collectEvents_any_order events events' added deleted :
  events ≡ₚ events' →
  NoDup (eventKey <$> events) →
  collectEvents events added deleted = collectEvents events' added deleted.
Proof.
  intros Hperm. revert added deleted.
  induction Hperm as [|event l l' Hperm IH|event1 event2 l|l l' l'' Hperm1 IH1 Hperm2 IH2];
    intros added deleted Hnodup.
  - done.
  - rewrite fmap_cons in Hnodup. apply NoDup_cons in Hnodup as [_ Hnodup].
    rewrite !collectEvents_cons. by apply IH.
  - rewrite !fmap_cons in Hnodup.
    apply NoDup_cons in Hnodup as [Hne%not_elem_of_cons _].
    change (collectEvents ([event2; event1] ++ l) added deleted
            = collectEvents ([event1; event2] ++ l) added deleted).
    rewrite !collectEvents_app. rewrite (collectEvent_swap event2 event1); [done|].
    by destruct Hne as [? _].
  - rewrite IH1 by done. apply IH2. by rewrite <-Hperm1.
Qed.

(** X4. The last collected event for an identity decides where the identity
    is: whatever came before, and whatever comes after for other identities,
    a create event leaves it in [added] with its labels only, a delete event
    in [deleted] with no labels only. *)
Theorem collectEvents_last_event_wins (id : ID)
    (before after : list AllocatorEvent) added deleted :
  Forall (λ event, collected event → eventKey event ≠ NumericIdentity_of_ID id)
         after →
  (∀ L : LabelArray,
     (collectEvents (before ++ Create id L :: after) added deleted).1
       !! NumericIdentity_of_ID id = Some L
     ∧ (collectEvents (before ++ Create id L :: after) added deleted).2
         !! NumericIdentity_of_ID id = None)
  ∧ (∀ key : AllocatorKey,
       (collectEvents (before ++ Delete id key :: after) added deleted).1
         !! NumericIdentity_of_ID id = None
       ∧ (collectEvents (before ++ Delete id key :: after) added deleted).2
           !! NumericIdentity_of_ID id = Some []).
Proof.
  intros Hafter. split.
  - intros L. rewrite collectEvents_app, collectEvents_cons, collectEvent_Create.
    simpl.
    destruct (collectEvents_untouched after (NumericIdentity_of_ID id)
                (<[NumericIdentity_of_ID id := L]> (collectEvents before added deleted).1)
                (delete (NumericIdentity_of_ID id) (collectEvents before added deleted).2)
                Hafter) as [-> ->].
    by rewrite lookup_insert_eq, lookup_delete_eq.
  - intros key. rewrite collectEvents_app, collectEvents_cons, collectEvent_Delete.
    simpl.
    destruct (collectEvents_untouched after (NumericIdentity_of_ID id)
                (delete (NumericIdentity_of_ID id) (collectEvents before added deleted).1)
                (<[NumericIdentity_of_ID id := []]> (collectEvents before added deleted).2)
                Hafter) as [-> ->].
    by rewrite lookup_insert_eq, lookup_delete_eq.
Qed.

(** X5. An identity that no collected event of the sequence is filed under
    is left as it was in both maps. *)
Theorem collectEvents_unmentioned_key events k added deleted :
  k ∉ (eventKey <$> filter collected events) →
  (collectEvents events added deleted).1 !! k = added !! k
  ∧ (collectEvents events added deleted).2 !! k = deleted !! k.
Proof.
  intros Hk. apply collectEvents_untouched.
  apply Forall_forall. intros event Hin Hc <-.
  apply Hk, list_elem_of_fmap. exists event. split; [done|].
  by apply list_elem_of_filter.
Qed.

(** X6. Every identity of [deleted] carries an empty label array, after any
    sequence of events on two empty maps and in every batch an iteration of
    the watcher issues. *)
Theorem deleted_label_arrays_empty events :
  map_Forall (λ _ v, v = []) (collectEvents events ∅ ∅).2
  ∧ (∀ added deleted,
       watch_iteration events = Some (added, deleted) →
       map_Forall (λ _ v, v = []) deleted).
Proof.
  split.
  - apply collectEvents_deleted_empty, map_Forall_empty.
  - intros added deleted. rewrite watch_iteration_collectEvents.
    case_decide; [|done]. intros [= Heq].
    pose proof (collectEvents_deleted_empty (filter collectable events) ∅ ∅
                  (map_Forall_empty _)) as Hd.
    by rewrite Heq in Hd.
Qed.

(** X7. After a sequence of events on two empty maps, the identities in
    [added] or [deleted] are exactly those the collected events are filed
    under. *)
Theorem collectEvents_keys events :
  dom (collectEvents events ∅ ∅).1 ∪ dom (collectEvents events ∅ ∅).2
  = list_to_set (eventKey <$> filter collected events).
Proof.
  rewrite collectEvents_dom, !dom_empty_L.
  by rewrite !(right_id_L ∅ (∪)).
Qed.

Lemma First_select_First (stop : list bool) events added deleted rest added' deleted' :
  First_select stop events added deleted = Some (rest, added', deleted') →
  First events added deleted = Some (rest, added', deleted').
Proof.
  revert stop added deleted.
  induction events as [|event events IH]; intros stop added deleted; [done|].
  cbn [First_select First]. destruct (hd false stop); [done|].
  destruct (collectEvent event added deleted) as [[c a] d].
  destruct (Typ event); [destruct c; [done|apply IH] | apply IH
                        | destruct c; [done|apply IH]].
Qed.

Lemma First_select_open (stop : list bool) events added deleted :
  Forall (λ taken, taken = false) stop →
  First_select stop events added deleted = First events added deleted.
Proof.
  revert stop added deleted.
  induction events as [|event events IH]; intros stop added deleted Hstop; [done|].
  assert (hd false stop = false ∧ Forall (λ taken, taken = false) (tl stop))
    as [Hhd Htl].
  { destruct Hstop as [|taken stop Htaken Hstop]; [by split|]. by split. }
  cbn [First_select First]. rewrite Hhd.
  destruct (collectEvent event added deleted) as [[c a] d].
  destruct (Typ event); [destruct c; [done|by apply IH] | by apply IH
                        | destruct c; [done|by apply IH]].
Qed.

(** X8. On a queue of events, every batch an iteration of the watcher
    issues, whatever the select does about the stop channel, is the batch
    [collectEvent] builds from the collected create and delete events of the
    queue, in their order; modify events and create events with a key of a
    foreign type make no difference.  When the case of the stop channel is
    never taken, a batch is issued exactly when the queue holds a collected
    create or delete event.  When that case is taken at the first select, or
    the queue holds no such event, the iteration issues nothing. *)
Theorem watch_iteration_batch events :
  (∀ stop added deleted,
     watch_select stop events = Some (added, deleted) →
     (added, deleted) = collectEvents (filter collectable events) ∅ ∅)
  ∧ (∀ stop,
       Forall (λ taken, taken = false) stop →
       watch_select stop events
       = if decide (Exists collectable events)
         then Some (collectEvents (filter collectable events) ∅ ∅)
         else None)
  ∧ (∀ stop, watch_select (true :: stop) events = None)
  ∧ (∀ stop, ¬ Exists collectable events → watch_select stop events = None)
  ∧ watch_select [] events = watch_iteration events.
Proof.
  assert (Hissued : ∀ stop added deleted,
            watch_select stop events = Some (added, deleted) →
            watch_iteration events = Some (added, deleted)).
  { intros stop added deleted. unfold watch_select, watch_iteration.
    destruct (First_select stop events ∅ ∅) as [[[rest a] d]|] eqn:Hsel; [|done].
    by rewrite (First_select_First _ _ _ _ _ _ _ Hsel). }
  assert (Hopen : ∀ stop, Forall (λ taken, taken = false) stop →
            watch_select stop events = watch_iteration events).
  { intros stop Hstop. unfold watch_select, watch_iteration.
    by rewrite First_select_open. }
  split; [|split; [|split; [|split]]].
  - intros stop added deleted Hsel%Hissued.
    rewrite watch_iteration_collectEvents in Hsel.
    case_decide; [|done]. by injection Hsel as <-.
  - intros stop Hstop. by rewrite Hopen, watch_iteration_collectEvents.
  - intros stop. unfold watch_select. by destruct events.
  - intros stop Hnone.
    destruct (watch_select stop events) as [[added deleted]|] eqn:Hsel; [|done].
    apply Hissued in Hsel. rewrite watch_iteration_collectEvents in Hsel.
    by rewrite decide_False in Hsel.
  - by apply Hopen.
Qed.

(** X9. A batch that is issued names at least one identity: the identities
    of its two maps are those of the collected create and delete events of
    the channel, and there is one. *)
Theorem watch_iteration_batch_not_empty events added deleted :
  watch_iteration events = Some (added, deleted) →
  dom added ∪ dom deleted
  = list_to_set (eventKey <$> filter collectable events)
  ∧ dom added ∪ dom deleted ≠ ∅.
Proof.
  rewrite watch_iteration_collectEvents.
  case_decide as Hex; [|done]. intros [= Heq].
  assert (dom added ∪ dom deleted
          = list_to_set (eventKey <$> filter collectable events)) as Hdom.
  { pose proof (collectEvents_dom (filter collectable events) ∅ ∅) as Hkeys.
    rewrite Heq, filter_collected_collectable, !dom_empty_L in Hkeys.
    by rewrite !(right_id_L ∅ (∪)) in Hkeys. }
  split; [done|]. rewrite Hdom.
  apply Exists_exists in Hex as (event & Hin & Hc).
  intros Hempty.
  assert (eventKey event ∈ (∅ : gset NumericIdentity)) as Habs;
    [|by apply not_elem_of_empty in Habs].
  rewrite <-Hempty. apply elem_of_list_to_set, list_elem_of_fmap.
  exists event. split; [done|]. by apply list_elem_of_filter.
Qed.
End watcher_extras.

(** Create(7, app=foo) and Delete(8) in either order. *)
Lemma collectEvents_any_order_witness :
  [Create 7 (example.app "foo"); Delete 8 KeyNil]
    ≡ₚ [Delete 8 KeyNil; Create 7 (example.app "foo")]
  ∧ NoDup (eventKey <$> [Create 7 (example.app "foo"); Delete 8 KeyNil])
  ∧ collectEvents [Create 7 (example.app "foo"); Delete 8 KeyNil] ∅ ∅
    = collectEvents [Delete 8 KeyNil; Create 7 (example.app "foo")] ∅ ∅.
Proof.
  assert (Hperm : [Create 7 (example.app "foo"); Delete 8 KeyNil]
                    ≡ₚ [Delete 8 KeyNil; Create 7 (example.app "foo")])
    by apply perm_swap.
  assert (Hnodup : NoDup (eventKey <$> [Create 7 (example.app "foo");
                                        Delete 8 KeyNil])).
  { apply (bool_decide_unpack _). by vm_compute. }
  split; [done|]. split; [done|].
  exact (collectEvents_any_order _ _ ∅ ∅ Hperm Hnodup).
Defined.

(** Delete(7), then Create(7, app=foo), then Delete(8). *)
Lemma collectEvents_last_event_wins_witness :
  Forall (λ event, collected event → eventKey event ≠ NumericIdentity_of_ID 7)
         [Delete 8 KeyNil]
  ∧ (collectEvents ([Delete 7 KeyNil] ++ Create 7 (example.app "foo")
                      :: [Delete 8 KeyNil]) ∅ ∅).1
      !! NumericIdentity_of_ID 7 = Some (example.app "foo").
Proof.
  assert (Hafter :
            Forall (λ event, collected event
                             → eventKey event ≠ NumericIdentity_of_ID 7)
                   [Delete 8 KeyNil]).
  { constructor; [|constructor]. intros _. by vm_compute. }
  split; [done|].
  exact (proj1 (proj1 (collectEvents_last_event_wins
                         7 [Delete 7 KeyNil] [Delete 8 KeyNil] ∅ ∅ Hafter)
                      (example.app "foo"))).
Defined.

(** The identity 9 after Create(7, app=foo) and Delete(8). *)
Lemma collectEvents_unmentioned_key_witness :
  (9%N ∉ (eventKey <$> filter collected [Create 7 (example.app "foo");
                                           Delete 8 KeyNil]))
  ∧ (collectEvents [Create 7 (example.app "foo"); Delete 8 KeyNil]
                   ∅ {[ 9%N := [] ]}).2 !! 9%N = Some [].
Proof.
  assert (Hk : 9%N ∉ (eventKey <$> filter collected
                        [Create 7 (example.app "foo"); Delete 8 KeyNil])).
  { apply (bool_decide_unpack _). by vm_compute. }
  split; [done|].
  exact (proj2 (collectEvents_unmentioned_key _ 9%N ∅ {[ 9%N := [] ]} Hk)).
Defined.

(** The batch of the scenario names the identities 7 and 8. *)
Lemma watch_iteration_batch_not_empty_witness :
  watch_iteration [ Create 7 (example.app "foo"); Create 8 (example.app "bar");
                    Delete 7 KeyNil ]
  = Some ({[ 8%N := example.app "bar" ]}, {[ 7%N := [] ]})
  ∧ dom ({[ 8%N := example.app "bar" ]} : gmap N (list example.label))
    ∪ dom ({[ 7%N := [] ]} : gmap N (list example.label)) ≠ ∅.
Proof.
  assert (Hiter :
            watch_iteration [ Create 7 (example.app "foo");
                              Create 8 (example.app "bar"); Delete 7 KeyNil ]
            = Some ({[ 8%N := example.app "bar" ]}, {[ 7%N := [] ]}))
    by by vm_compute.
  split; [done|].
  exact (proj2 (watch_iteration_batch_not_empty _ _ _ Hiter)).
Defined.

(** * More on the read path *)
Section cache_extras.
Context `{Collaborators}.
Implicit Types (m : CachingIdentityAllocator) (cache : IdentityCache).
Implicit Types (a : allocator.Allocator) (l : option localIdentityCache.t).

(** In a map built by a loop, the entry of a key is the last one stored
    under it. *)
Lemma list_to_map_reverse_last (pre post : list (NumericIdentity * LabelArray))
    (k : NumericIdentity) (v : LabelArray) :
  k ∉ post.*1 →
  (list_to_map (reverse (pre ++ (k, v) :: post)) : IdentityCache) !! k = Some v.
Proof.
  intros Hpost.
  rewrite reverse_app, reverse_cons, <-(assoc_L (++)), list_to_map_app.
  rewrite lookup_union_r.
  - simpl. apply lookup_insert_eq.
  - apply not_elem_of_list_to_map_1. by rewrite fmap_reverse, elem_of_reverse.
Qed.

Lemma localEntries_None l (k : NumericIdentity) :
  k ∉ Identity_ID <$> localList l → localEntries l !! k = None.
Proof.
  intros Hk. unfold localEntries. apply not_elem_of_list_to_map_1.
  by rewrite fmap_reverse, elem_of_reverse, <-list_fmap_compose.
Qed.

(** X10. When the sources of [GetIdentityCache] disagree on a key, the
    local store wins over the reserved table and the reserved table over the
    allocator's cache; within the local store and within the allocator's
    cache, the entry listed last wins.  Whatever the state, the call returns
    a map. *)
Theorem GetIdentityCache_precedence m :
  ∃ cache,
    GetIdentityCache m = Ok cache
    ∧ (∀ pre i post,
         localList (localIdentities m) = pre ++ i :: post →
         Identity_ID i ∉ Identity_ID <$> post →
         cache !! Identity_ID i = Some (labelsOf i))
    ∧ (∀ (k : NumericIdentity) i,
         k ∉ Identity_ID <$> localList (localIdentities m) →
         ReservedIdentityCache !! k = Some i →
         cache !! k = Some (labelsOf i))
    ∧ (∀ a pre id gi post,
         IdentityAllocator m = Some a →
         allocator.entries a = pre ++ (id, KeyGlobalIdentity gi) :: post →
         NumericIdentity_of_ID id ∉ (omap recognized post).*1 →
         NumericIdentity_of_ID id ∉ Identity_ID <$> localList (localIdentities m) →
         ReservedIdentityCache !! NumericIdentity_of_ID id = None →
         cache !! NumericIdentity_of_ID id = Some (GlobalIdentity_LabelArray gi)).
Proof.
  eexists. split; [apply GetIdentityCache_eq|]. split; [|split].
  - intros pre i post Hlist Hpost.
    apply lookup_union_Some_l. unfold localEntries.
    rewrite Hlist, fmap_app, fmap_cons.
    apply list_to_map_reverse_last. by rewrite <-list_fmap_compose.
  - intros k i Hlocal Hres.
    rewrite lookup_union_r by by apply localEntries_None.
    apply lookup_union_Some_l, lookup_reservedEntries. by exists i.
  - intros a pre id gi post -> Hentries Hpost Hlocal Hres.
    rewrite lookup_union_r by by apply localEntries_None.
    rewrite lookup_union_r.
    + unfold allocatorEntries. rewrite Hentries, omap_app. simpl.
      by apply list_to_map_reverse_last.
    + unfold reservedEntries. by rewrite lookup_fmap, Hres.
Qed.

Lemma foldr_append_models (g : Identity → Model)
    (kvs : list (NumericIdentity * Identity)) (identities : list Model) :
  foldr (uncurry (λ (_ : NumericIdentity) v identities, identities ++ [g v]))
        identities kvs
  = identities ++ reverse (g <$> kvs.*2).
Proof.
  induction kvs as [|[k v] kvs IH]; simpl.
  - symmetry. apply app_nil_r.
  - by rewrite IH, reverse_cons, (assoc_L (++)).
Qed.

Lemma fold_left_append_models (g : Identity → Model)
    (vs : list Identity) (identities : list Model) :
  fold_left (λ identities v, identities ++ [g v]) vs identities
  = identities ++ (g <$> vs).
Proof.
  revert identities. induction vs as [|v vs IH]; intros identities; simpl.
  - symmetry. apply app_nil_r.
  - by rewrite IH, <-(assoc_L (++)).
Qed.

Lemma ForeachCache_models a (identities : list Model) :
  allocator.ForeachCache a
    (λ id val identities,
       match asGlobalIdentity val with
       | Some gi =>
           identities
           ++ [GetModel (NewIdentityFromLabelArray
                           (NumericIdentity_of_ID id)
                           (GlobalIdentity_LabelArray gi))]
       | None => identities
       end)
    identities
  = identities
    ++ ((λ p, GetModel (NewIdentityFromLabelArray p.1 p.2))
          <$> omap recognized (allocator.entries a)).
Proof.
  unfold allocator.ForeachCache.
  generalize (allocator.entries a) as es. intros es. revert identities.
  induction es as [|[id val] es IH]; intros identities; simpl.
  - symmetry. apply app_nil_r.
  - rewrite IH. destruct val as [|gi|ty]; simpl; [done| |done].
    by rewrite <-(assoc_L (++)).
Qed.

(** X11. With an allocator and a local store, [GetIdentities] returns one
    model per recognized entry of the allocator's cache (in the order of the
    cache), then one per reserved identity (in some order), then one per
    local identity (in the order of the store): nothing is merged, so an
    identity listed by two sources is returned twice. *)
Theorem GetIdentities_lists_every_source a (ls : localIdentityCache.t) :
  ∃ reserved : list Model,
    reserved ≡ₚ GetModel <$> (map_to_list ReservedIdentityCache).*2
    ∧ GetIdentities {| IdentityAllocator := Some a; localIdentities := Some ls |}
      = Ok (((λ p, GetModel (NewIdentityFromLabelArray p.1 p.2))
               <$> omap recognized (allocator.entries a))
            ++ reserved
            ++ (GetModel <$> localIdentityCache.GetIdentities ls))
    ∧ length reserved = size ReservedIdentityCache.
Proof.
  exists (reverse (GetModel <$> (map_to_list ReservedIdentityCache).*2)).
  split; [apply reverse_Permutation|]. split.
  - unfold GetIdentities; simpl. f_equal.
    rewrite fold_left_append_models, map_fold_foldr.
    rewrite foldr_append_models, ForeachCache_models. simpl.
    by rewrite <-(assoc_L (++)).
  - by rewrite length_reverse, !length_fmap, length_map_to_list.
Qed.

Lemma LookupIdentity_Panic_iff m (lbls : Labels) :
  LookupIdentity m lbls = Panic ↔
  LookupReservedIdentityByLabels lbls = None ∧ localIdentities m = None.
Proof.
  unfold LookupIdentity.
  destruct (LookupReservedIdentityByLabels lbls); [by split; [|intros []]|].
  destruct (localIdentities m) as [ls|]; simpl; [|done].
  split; [|by intros []]. intros Hp. exfalso.
  destruct (localIdentityCache.lookup ls lbls); [done|].
  destruct (IdentityAllocator m) as [a|]; [|done].
  destruct (allocator.Get a _) as [id [err|]]; [done|].
  by case_decide.
Qed.

Lemma LookupIdentityByID_Panic_iff m (id : NumericIdentity) :
  LookupIdentityByID m id = Panic ↔
  id ≠ IdentityUnknown ∧ LookupReservedIdentity id = None
  ∧ is_Some (IdentityAllocator m) ∧ localIdentities m = None.
Proof.
  unfold LookupIdentityByID.
  case_decide as Hid; [by split; [|intros []]|].
  destruct (LookupReservedIdentity id); [by split; [|intros (_ & ? & _)]|].
  destruct (IdentityAllocator m) as [a|];
    [|by split; [|intros (_ & _ & [] & _)]].
  destruct (localIdentities m) as [ls|]; simpl; [|by eauto 10].
  split; [|by intros (_ & _ & _ & ?)]. intros Hp. exfalso.
  destruct (localIdentityCache.lookupByID ls id); [done|].
  by destruct (allocator.GetByID a _) as [[|gi|ty] [err|]].
Qed.


(** X12. The two lookups panic in one situation each: [LookupIdentity] when
    the labels are not reserved and the local store is nil, and
    [LookupIdentityByID] when the identity is neither IdentityUnknown nor
    reserved, the allocator is set and the local store is nil. *)
Theorem lookups_panic_exactly m :
  (∀ lbls : Labels,
     LookupIdentity m lbls = Panic ↔
     LookupReservedIdentityByLabels lbls = None ∧ localIdentities m = None)
  ∧ (∀ id : NumericIdentity,
       LookupIdentityByID m id = Panic ↔
       id ≠ IdentityUnknown ∧ LookupReservedIdentity id = None
       ∧ is_Some (IdentityAllocator m) ∧ localIdentities m = None).
Proof.
  split; [apply LookupIdentity_Panic_iff | apply LookupIdentityByID_Panic_iff].
Qed.
End cache_extras.

(** * Sorting, the API handlers and the HTTP rules *)
Section api_extras.
Context `{ApiCollaborators}.
Implicit Types (s : IdentitiesModel) (i j : Z).

Lemma index_Ok {A : Type} (l : list A) i (x : A) :
  index l i = Ok x ↔ (0 ≤ i)%Z ∧ l !! Z.to_nat i = Some x.
Proof.
  unfold index. case_decide as Hi.
  - destruct (l !! Z.to_nat i) eqn:Hl; simpl; [|by split; [|intros []]].
    split; [intros [= ->]; split; [lia|done] | by intros [_ [= ->]]].
  - split; [done|]. intros [? Hl%lookup_lt_Some]. lia.
Qed.

Lemma index_out_of_range {A : Type} (l : list A) i :
  ¬ (0 ≤ i < Z.of_nat (length l))%Z → index l i = Panic.
Proof. intros Hi. unfold index. by rewrite decide_False. Qed.

Lemma Less_inv s i j (b : bool) :
  Less s i j = Ok b →
  ∃ x y xid yid,
    index s i = Ok x ∧ Model_ID x = Some xid
    ∧ index s j = Ok y ∧ Model_ID y = Some yid
    ∧ b = bool_decide (xid < yid)%Z.
Proof.
  unfold Less.
  destruct (index s i) as [x|]; simpl; [|done].
  destruct (Model_ID x) as [xid|] eqn:Hx; simpl; [|done].
  destruct (index s j) as [y|]; simpl; [|done].
  destruct (Model_ID y) as [yid|] eqn:Hy; simpl; [|done].
  intros [= <-]. by exists x, y, xid, yid.
Qed.

Lemma Less_intro s i j x y (xid yid : Z) :
  index s i = Ok x → Model_ID x = Some xid →
  index s j = Ok y → Model_ID y = Some yid →
  Less s i j = Ok (bool_decide (xid < yid)%Z).
Proof. intros Hi Hx Hj Hy. unfold Less. by rewrite Hi; simpl; rewrite Hx; simpl; rewrite Hj; simpl; rewrite Hy. Qed.

(** X13. [Less] compares the IDs of two elements of the slice: it is a
    strict order on the indices it accepts (never true of an index and
    itself, never true both ways, transitive), and it panics when an index is
    negative or not below the length, as on every index of an empty slice. *)
Theorem Less_strict_order s :
  (∀ i j, ¬ (0 ≤ i < Z.of_nat (length s))%Z ∨ ¬ (0 ≤ j < Z.of_nat (length s))%Z →
          Less s i j = Panic)
  ∧ (∀ i j x y xid yid,
       (0 ≤ i)%Z → s !! Z.to_nat i = Some x → Model_ID x = Some xid →
       (0 ≤ j)%Z → s !! Z.to_nat j = Some y → Model_ID y = Some yid →
       Less s i j = Ok (bool_decide (xid < yid)%Z))
  ∧ (∀ i, Less s i i ≠ Ok true)
  ∧ (∀ i j, Less s i j = Ok true → Less s j i = Ok false)
  ∧ (∀ i j k, Less s i j = Ok true → Less s j k = Ok true →
              Less s i k = Ok true).
Proof.
  split; [|split; [|split; [|split]]].
  - intros i j [Hi|Hj]; unfold Less.
    + by rewrite (index_out_of_range s i).
    + destruct (index s i) as [x|]; simpl; [|done].
      destruct (Model_ID x); simpl; [|done].
      by rewrite (index_out_of_range s j).
  - intros i j x y xid yid ? Hi Hx ? Hj Hy.
    apply (Less_intro s i j x y); try done; by apply index_Ok.
  - intros i (x & y & xid & yid & Hx & Hxid & Hy & Hyid & Hb)%Less_inv.
    rewrite Hx in Hy. injection Hy as <-. rewrite Hxid in Hyid.
    injection Hyid as <-. symmetry in Hb. apply bool_decide_eq_true in Hb. lia.
  - intros i j (x & y & xid & yid & Hx & Hxid & Hy & Hyid & Hb)%Less_inv.
    rewrite (Less_intro s j i y x yid xid) by done.
    symmetry in Hb. apply bool_decide_eq_true in Hb.
    f_equal. apply bool_decide_eq_false. lia.
  - intros i j k (x & y & xid & yid & Hx & Hxid & Hy & Hyid & Hb)%Less_inv
                 (y' & z & yid' & zid & Hy' & Hyid' & Hz & Hzid & Hb')%Less_inv.
    rewrite Hy in Hy'. injection Hy' as <-. rewrite Hyid in Hyid'.
    injection Hyid' as <-.
    rewrite (Less_intro s i k x z xid zid) by done.
    symmetry in Hb, Hb'. apply bool_decide_eq_true in Hb, Hb'.
    f_equal. apply bool_decide_eq_true. lia.
Qed.

(** X14. getIdentityID.Handle answers BadRequest when the ID does not
    parse, whatever the allocator is; for IdentityUnknown it answers OK with
    the model of [unknownIdentity]; for any other parsed ID it answers OK
    with the model of the identity [LookupIdentityByID] returns and NotFound
    when that returns nil; it panics only when that panics, so never without
    an allocator. *)
Theorem getIdentityID_Handle_responses (c : CachingIdentityAllocator)
    (params : GetIdentityIDParams) :
  (∀ nid err, ParseNumericIdentity (Params_ID params) = (nid, Some err) →
              getIdentityID_Handle c params = Ok GetIdentityIDBadRequest)
  ∧ (ParseNumericIdentity (Params_ID params) = (IdentityUnknown, None) →
     getIdentityID_Handle c params
     = Ok (GetIdentityIDOK (GetModel unknownIdentity)))
  ∧ (∀ nid, ParseNumericIdentity (Params_ID params) = (nid, None) →
       (∀ found : Identity,
          LookupIdentityByID c nid = Ok (Some found) →
          getIdentityID_Handle c params = Ok (GetIdentityIDOK (GetModel found)))
       ∧ (getIdentityID_Handle c params = Ok GetIdentityIDNotFound ↔
          LookupIdentityByID c nid = Ok None)
       ∧ (getIdentityID_Handle c params = Panic ↔
          LookupIdentityByID c nid = Panic))
  ∧ (IdentityAllocator c = None → getIdentityID_Handle c params ≠ Panic).
Proof.
  unfold getIdentityID_Handle. split; [|split; [|split]].
  - by intros nid err ->.
  - intros ->. unfold LookupIdentityByID. by rewrite decide_True.
  - intros nid ->.
    destruct (LookupIdentityByID c nid) as [[found|]|]; simpl;
      split; try split; try done; by intros ? [= <-].
  - intros Hnil.
    destruct (ParseNumericIdentity (Params_ID params)) as [nid [err|]]; [done|].
    destruct (LookupIdentityByID c nid) as [[found|]|] eqn:Hlookup; simpl;
      try done.
    apply LookupIdentityByID_Panic_iff in Hlookup as (_ & _ & [a Ha] & _).
    congruence.
Qed.

End api_extras.

Section http_extras.
Context (regexp_Compile : string → option string) (K8sSecret : Type).
Implicit Types h : http.PortRuleHTTP K8sSecret.

(** X16. [Sanitize] accepts a rule exactly when its path is empty or
    compiles and its method is empty or compiles; the error of the path comes
    before that of the method; an error is always the one [regexp.Compile]
    gave for the path or the method; the host, the headers and the secret
    headers make no difference. *)
Theorem Sanitize_checks_path_then_method h :
  (http.Sanitize regexp_Compile h = None ↔
   (http.Path h = "" ∨ regexp_Compile (http.Path h) = None)
   ∧ (http.Method h = "" ∨ regexp_Compile (http.Method h) = None))
  ∧ (∀ err, http.Path h ≠ "" → regexp_Compile (http.Path h) = Some err →
            http.Sanitize regexp_Compile h = Some err)
  ∧ (∀ err, http.Sanitize regexp_Compile h = Some err →
            http.Path h ≠ "" ∧ regexp_Compile (http.Path h) = Some err
            ∨ http.Method h ≠ "" ∧ regexp_Compile (http.Method h) = Some err)
  ∧ (∀ (host : string) (headers : list string)
       (secretHeaders : list (option (http.SecretHeader K8sSecret))),
       http.Sanitize regexp_Compile
         {| http.Path := http.Path h; http.Method := http.Method h;
            http.Host := host; http.Headers := headers;
            http.SecretHeaders := secretHeaders |}
       = http.Sanitize regexp_Compile h).
Proof.
  unfold http.Sanitize. split; [|split; [|split]].
  - destruct (decide (http.Path h ≠ "")) as [Hp|Hp%dec_stable];
      destruct (decide (http.Method h ≠ "")) as [Hm|Hm%dec_stable];
      try destruct (regexp_Compile (http.Path h));
      try destruct (regexp_Compile (http.Method h));
      split; try done; try tauto; intros [[?|?] [?|?]]; congruence.
  - intros err Hp ->. by rewrite decide_True.
  - intros err.
    destruct (decide (http.Path h ≠ "")) as [Hp|Hp];
      destruct (decide (http.Method h ≠ "")) as [Hm|Hm];
      try destruct (regexp_Compile (http.Path h));
      try destruct (regexp_Compile (http.Method h));
      try done; intros [= ->]; auto.
  - done.
Qed.
End http_extras.

(** The handlers, [Less] and [Sanitize] on the concrete collaborators: no
    allocator and the local store of [example]. *)
Example getIdentityID_Handle_examples :
  let c := {| IdentityAllocator := None;
              localIdentities := Some example.local_store |} in
  getIdentityID_Handle c {| Params_ID := "one" |} = Ok GetIdentityIDBadRequest
  ∧ getIdentityID_Handle c {| Params_ID := "0" |}
    = Ok (GetIdentityIDOK (GetModel unknownIdentity))
  ∧ getIdentityID_Handle c {| Params_ID := "1" |}
    = Ok (GetIdentityIDOK example.world)
  ∧ getIdentity_Handle c {| Params_Labels := None |} = Panic.
Proof. repeat split; reflexivity. Qed.

Example Less_examples :
  Less [example.cidr; example.world] 1 0 = Ok true
  ∧ Less [example.cidr; example.world] 0 1 = Ok false
  ∧ Less [example.cidr; example.world] 0 2 = Panic
  ∧ Less [example.cidr; example.world] (-1) 0 = Panic.
Proof. by vm_compute. Qed.

Example Sanitize_examples :
  http.Sanitize example_api.compile (example_api.rule "" "") = None
  ∧ http.Sanitize example_api.compile (example_api.rule "/public/.*" "GET") = None
  ∧ http.Sanitize example_api.compile (example_api.rule "(" "GET")
    = Some "missing closing )"
  ∧ http.Sanitize example_api.compile (example_api.rule "/public/.*" "(")
    = Some "missing closing )".
Proof. by vm_compute. Qed.

(** The queue of the scenario when the select takes the case of the stop
    channel at once, after one event, or not at all. *)
Example watch_select_examples :
  let events := [ Create 7 (example.app "foo"); Create 8 (example.app "bar");
                  Delete 7 KeyNil ] in
  watch_select [true] events = None
  ∧ watch_select [false; true] events
    = Some ({[ 8%N := example.app "bar" ]}, {[ 7%N := [] ]})
  ∧ watch_select [] (Create 9 [] :: events)
    = Some ({[ 8%N := example.app "bar"; 9%N := [] ]}, {[ 7%N := [] ]})
  ∧ watch_select [false; true]
      ({| Typ := EventTypeCreate; Event_ID := 9; Key := KeyOther "string" |}
       :: events)
    = None.
Proof. by vm_compute. Qed.
